(** * verdaccio-group-htpasswd: the multi-file htpasswd store

    A shallow embedding of [src/htpasswd.ts] (class [HTPasswd]) and of the
    types of [types/index.ts], together with a model of the part of Node
    the class talks to ([fs.stat], [fs.readFile], [fs.writeFile], the file
    lock), and the properties of the store proved or refuted on it.

    Layout: JavaScript values, the file system, the imported helpers,
    the class, then the theorems. *)

From Stdlib Require Import Ascii String.
From stdpp Require Import gmap strings list fin_maps sorting.

Set Warnings "-clear-no-such-hyp".

#[local] Open Scope string_scope.
#[local] Open Scope list_scope.
#[local] Open Scope nat_scope.

(** ** JavaScript values *)

(** An [Error] object: Node's system errors carry [code] (["ENOENT"],
    ["EACCES"], ...); [new Error(msg)] has none. *)
Record JsError := mkError { err_code : option string; err_message : string }.

#[global] Instance JsError_eq_dec : EqDecision JsError.
Proof. solve_decision. Defined.

(** [err.code === 'ENOENT'] *)
Definition is_ENOENT (e : JsError) : bool :=
  bool_decide (err_code e = Some "ENOENT").

(** The error of a system call on a path that does not exist. *)
Definition enoent (syscall path : string) : JsError :=
  mkError (Some "ENOENT") ("ENOENT: no such file or directory, " +:+ syscall +:+ " '" +:+ path +:+ "'").

(** A [number] as the configuration can give it.  Finite values are kept
    as integers (user counts); the three special doubles are separate. *)
Inductive JsNumber := Num (z : Z) | Infinity | NegInfinity | NaN.

#[global] Instance JsNumber_eq_dec : EqDecision JsNumber.
Proof. solve_decision. Defined.

(** Truthiness of a number: [0] and [NaN] are falsy. *)
Definition truthy_number (n : JsNumber) : bool :=
  match n with
  | Num 0%Z => false
  | NaN => false
  | _ => true
  end.

(** [x || y] where [x] may be [undefined]. *)
Definition or_number (x : option JsNumber) (y : JsNumber) : JsNumber :=
  match x with
  | Some n => if truthy_number n then n else y
  | None => y
  end.

(** Truthiness of a string: only [''] is falsy. *)
Definition truthy_string (s : string) : bool :=
  match s with
  | EmptyString => false
  | String _ _ => true
  end.

(** A [Date] is an object: [date_ref] is its identity on the heap,
    [date_ms] the time it holds.  [FileConf.lastTime] and [Stats.mtime]
    are both of type [Date]. *)
Record Date := mkDate { date_ref : nat; date_ms : Z }.

#[global] Instance Date_eq_dec : EqDecision Date.
Proof. solve_decision. Defined.

(** [a === b] with [a : Date | undefined] and [b : Date].  Strict equality
    of two objects is identity; [undefined] is not an object. *)
Definition strict_eq_Date (a : option Date) (b : Date) : bool :=
  match a with
  | Some d => Nat.eqb (date_ref d) (date_ref b)
  | None => false
  end.

(** ** types/index.ts *)

Record FileConf := mkFileConf {
  isDefault : bool;
  file : string;
  groupName : string;
  path : option string;
  lastTime : option Date
}.

Record AuthConf := mkAuthConf {
  conf_files : option (list FileConf);   (* [files], possibly missing *)
  max_users : option JsNumber            (* [max_users], possibly missing *)
}.

Record User := mkUser { passwd : string; groups : gset string }.

#[global] Instance User_eq_dec : EqDecision User.
Proof. solve_decision. Defined.

(** [this.users]: an object used as a map from user name to [User]. *)
Abbreviation Users := (gmap string User).

(** [Object.assign(target, source)] and [{ ...target, ...source }]: the
    keys of [source] are written over those of [target]. *)
Definition assign (target source : Users) : Users := source ∪ target.

(** ** The file system and the file lock *)

Module Fs.

(** What is at a path: the outcome of [stat] (an error, or the
    modification time in ms) and the outcome of reading it. *)
Record Node := mkNode { node_stat : JsError + Z; node_data : JsError + string }.

Inductive Event :=
  | EvStat (p : string)
  | EvReadFile (p : string)
  | EvWriteFile (p body : string)
  | EvLockAndRead (p : string)
  | EvUnlock (p : string).

#[global] Instance Event_eq_dec : EqDecision Event.
Proof. solve_decision. Defined.

Record World := mkWorld {
  w_nodes : gmap string Node;
  w_next_ref : nat;                 (* next free object identity *)
  w_clock : Z;                      (* time stamp of the next write *)
  w_locked : gset string;           (* paths whose lock is held *)
  w_lock_err : option JsError;      (* the lock cannot be taken *)
  w_write_err : option JsError;     (* writes fail *)
  w_unlock_err : option JsError;    (* unlocking fails *)
  w_trace : list Event              (* every call made, oldest first *)
}.

Definition log (e : Event) (w : World) : World :=
  mkWorld (w_nodes w) (w_next_ref w) (w_clock w) (w_locked w)
          (w_lock_err w) (w_write_err w) (w_unlock_err w) (w_trace w ++ [e]).

Definition alloc (w : World) : World :=
  mkWorld (w_nodes w) (S (w_next_ref w)) (w_clock w) (w_locked w)
          (w_lock_err w) (w_write_err w) (w_unlock_err w) (w_trace w).

Definition set_locked (l : gset string) (w : World) : World :=
  mkWorld (w_nodes w) (w_next_ref w) (w_clock w) l
          (w_lock_err w) (w_write_err w) (w_unlock_err w) (w_trace w).

Definition put (p body : string) (w : World) : World :=
  mkWorld (<[p := mkNode (inr (w_clock w)) (inr body)]> (w_nodes w))
          (w_next_ref w) (w_clock w + 1)%Z (w_locked w)
          (w_lock_err w) (w_write_err w) (w_unlock_err w) (w_trace w).

(** [fs.stat(p, cb)]: every call builds a new [Stats] object, and with it
    a new [Date] for [mtime]. *)
Definition stat (p : string) (w : World) : World * (JsError + Date) :=
  let w := log (EvStat p) w in
  match w_nodes w !! p with
  | None => (w, inl (enoent "stat" p))
  | Some n =>
      match node_stat n with
      | inl e => (w, inl e)
      | inr ms => (alloc w, inr (mkDate (w_next_ref w) ms))
      end
  end.

(** [fs.readFile(p, 'utf8', cb)] *)
Definition readFile (p : string) (w : World) : World * (JsError + string) :=
  let w := log (EvReadFile p) w in
  match w_nodes w !! p with
  | None => (w, inl (enoent "open" p))
  | Some n => (w, node_data n)
  end.

(** [fs.writeFile(p, body, cb)] *)
Definition writeFile (p body : string) (w : World) : World * option JsError :=
  let w := log (EvWriteFile p body) w in
  match w_write_err w with
  | Some e => (w, Some e)
  | None => (put p body w, None)
  end.

(** [unlockFile(p, cb)] of @verdaccio/file-locking: an attempt is logged
    whether or not it succeeds. *)
Definition unlockFile (p : string) (w : World) : World * option JsError :=
  let w := log (EvUnlock p) w in
  match w_unlock_err w with
  | Some e => (w, Some e)
  | None => (set_locked (w_locked w ∖ {[p]}) w, None)
  end.

(** Modelled from the spec: [lockAndRead] of [./utils], which is not among
    the sources.  Section 4.2: the lock is taken on the path; a missing
    file is not an acquisition error, acquisition still succeeds and the
    read step reports NotFound; any other read failure surfaces with the
    lock still held.  The callback receives [(err, res)]. *)
Definition lockAndRead (p : string) (w : World)
  : World * (option JsError * option string) :=
  let w := log (EvLockAndRead p) w in
  match w_lock_err w with
  | Some e => (w, (Some e, None))
  | None =>
      let w := set_locked ({[p]} ∪ w_locked w) w in
      match w_nodes w !! p with
      | None => (w, (Some (enoent "open" p), None))
      | Some n =>
          match node_data n with
          | inl e => (w, (Some e, None))
          | inr s => (w, (None, Some s))
          end
      end
  end.


Definition is_write (e : Event) : bool :=
  match e with EvWriteFile _ _ => true | _ => false end.

End Fs.

(** ** The helpers imported from ./utils and from Node's path module *)

(** Modelled from the spec: [parseHTPasswd] of [./utils] (the spec's
    [parseEntries], section 4.1), which is not among the sources.  The text
    is split into lines; blank lines and lines beginning with [#] are
    ignored; every other line is split on its first [:] into user name and
    hash, and a line without [:] is skipped.  The group set of a parsed
    name is the existing one with the file's group added, or the file's
    group alone; the hash is the one just parsed.  The result is a fresh
    mapping. *)
Module Codec.

Definition newline : Ascii.ascii := "010"%char.

Fixpoint split_lines (s : string) : list string :=
  match s with
  | EmptyString => [EmptyString]
  | String c s' =>
      if Ascii.eqb c newline then EmptyString :: split_lines s'
      else match split_lines s' with
           | l :: ls => String c l :: ls
           | [] => [String c EmptyString]
           end
  end.

Fixpoint split_colon (s : string) : option (string * string) :=
  match s with
  | EmptyString => None
  | String c s' =>
      if Ascii.eqb c ":"%char then Some (EmptyString, s')
      else match split_colon s' with
           | Some (u, h) => Some (String c u, h)
           | None => None
           end
  end.

Definition parse_line (l : string) : option (string * string) :=
  match l with
  | EmptyString => None
  | String c _ => if Ascii.eqb c "#"%char then None else split_colon l
  end.

Definition entries (body : string) : list (string * string) :=
  omap parse_line (split_lines body).

Definition tagged (groupName : string) (existing : Users) (u h : string) : User :=
  mkUser h match existing !! u with
           | Some r => groups r ∪ {[groupName]}
           | None => {[groupName]}
           end.

Definition parseEntries (body groupName : string) (existing : Users) : Users :=
  fold_left (λ result e, <[e.1 := tagged groupName existing e.1 e.2]> result)
            (entries body) ∅.

End Codec.

(** What [htpasswd.ts] imports: the functions of [./utils] and the two
    functions of Node's [path] it calls.  [addUserToHTPasswd] and
    [changePasswordToHTPasswd] may throw. *)
Class Imports := {
  verifyPassword : string → string → bool;
  parseHTPasswd : string → string → Users → Users;
  addUserToHTPasswd : string → string → string → JsError + string;
  changePasswordToHTPasswd : string → string → string → string → JsError + string;
  sanityCheck : string → string → (string → string → bool) → Users → JsNumber → option JsError;
  Path_dirname : string → string;
  Path_resolve : string → string → string
}.

(** ** The class HTPasswd *)

Record HTPasswd := mkHTPasswd {
  this_users : Users;
  this_files : list FileConf;
  this_defaultConfig : FileConf;
  this_maxUsers : JsNumber;
  this_path : string
}.

(** The store together with the world it runs in. *)
Record State := mkState { store : HTPasswd; world : Fs.World }.

Definition set_world (w : Fs.World) (st : State) : State :=
  mkState (store st) w.

Definition set_users (us : Users) (st : State) : State :=
  mkState (mkHTPasswd us (this_files (store st)) (this_defaultConfig (store st))
                      (this_maxUsers (store st)) (this_path (store st)))
          (world st).

Definition set_lastTime (d : Date) (item : FileConf) : FileConf :=
  mkFileConf (isDefault item) (file item) (groupName item) (path item) (Some d).

(** [item.lastTime = d] for the [i]-th element of [this.files]. *)
Definition touch (i : nat) (d : Date) (st : State) : State :=
  mkState (mkHTPasswd (this_users (store st))
                      (alter (set_lastTime d) i (this_files (store st)))
                      (this_defaultConfig (store st))
                      (this_maxUsers (store st)) (this_path (store st)))
          (world st).

Definition dq : string := String "034"%char EmptyString.

Definition err_no_files : JsError :=
  mkError None ("should specify " +:+ dq +:+ "files" +:+ dq +:+ " in config").

Definition err_no_default : JsError :=
  mkError None ("A Defualt file should be specified in " +:+ dq +:+ "files" +:+ dq +:+ " ").

Definition err_type_error : JsError :=
  mkError None "Cannot read properties of undefined (reading 'map')".

Definition err_user_not_found : JsError := mkError None "User not found".

(** What a promise of [_reloadFile] is waiting for. *)
Inductive Task :=
  | AwaitStat (filePath group : string) (last : option Date)
  | AwaitRead (filePath group : string)
  | Resolved
  | Rejected (e : JsError).

(** The result handed to the callback of [authenticate]. *)
Inductive AuthResult :=
  | ResUndefined                    (* [cb(err)]: no second argument *)
  | ResFalse                        (* [cb(null, false)] *)
  | ResGroups (gs : gset string).   (* [cb(null, groups)] *)

(** One run of [reload]: the promises of the files, the first rejection
    seen by [Promise.all], and the indices of the files merged so far, in
    the order in which their reads completed. *)
Record Run := mkRun {
  run_state : State;
  run_tasks : list Task;
  run_rejected : option JsError;
  run_merged : list nat
}.

Section HTPasswd.
Context `{Imports}.

(** [files.map(item => ({ ...item, path: Path.resolve(...) }))] *)
Definition resolve_item (self_path : string) (item : FileConf) : FileConf :=
  mkFileConf (isDefault item) (file item) (groupName item)
             (Some (Path_resolve (Path_dirname self_path) (file item)))
             (lastTime item).

(** [new HTPasswd(config, stuff)], with [self_path] for
    [stuff.config.self_path]; [inl] is a thrown error. *)
Definition constructor (config : AuthConf) (self_path : string) : JsError + HTPasswd :=
  let maxUsers := or_number (max_users config) Infinity in
  match conf_files config with
  | None => inl err_type_error                     (* [files.map] on undefined *)
  | Some cfiles =>
      let files := map (resolve_item self_path) cfiles in
      if bool_decide (length cfiles = 0) then inl err_no_files
      else
        match List.find isDefault files with
        | None => inl err_no_default
        | Some defaultConfig =>
            match path defaultConfig with
            | None => inl err_no_default
            | Some p =>
                if truthy_string p
                then inr (mkHTPasswd ∅ files defaultConfig maxUsers p)
                else inl err_no_default
            end
        end
  end.

(** The synchronous part of [_reloadFile(item)]: the fields of [item] are
    read, and [fs.stat] is called unless there is no path. *)
Definition _reloadFile (item : FileConf) : Task :=
  match path item with
  | Some filePath =>
      if truthy_string filePath
      then AwaitStat filePath (groupName item) (lastTime item)
      else Resolved
  | None => Resolved
  end.

(** The callback of [fs.stat] for the [i]-th file. *)
Definition on_stat (i : nat) (filePath group : string) (last : option Date)
    (st : State) : State * Task :=
  let '(w, r) := Fs.stat filePath (world st) in
  let st := set_world w st in
  match r with
  | inl err => (st, Rejected err)
  | inr mtime =>
      if strict_eq_Date last mtime then (st, Resolved)
      else (touch i mtime st, AwaitRead filePath group)
  end.

(** The callback of [fs.readFile]: [oldUsers] is [this.users], the object
    itself, so [Object.assign] updates the index of the store. *)
Definition on_read (filePath group : string) (st : State) : State * Task :=
  let '(w, r) := Fs.readFile filePath (world st) in
  let st := set_world w st in
  match r with
  | inl err => (st, Rejected err)
  | inr buffer =>
      let oldUsers := this_users (store st) in
      (set_users (assign oldUsers (parseHTPasswd buffer group oldUsers)) st, Resolved)
  end.

(** [Promise.all] keeps the first rejection. *)
Definition settle (t : Task) (rej : option JsError) : option JsError :=
  match rej, t with
  | None, Rejected e => Some e
  | _, _ => rej
  end.

(** The list of merged files after a callback of the [i]-th file: the file
    is added when its read callback has merged it. *)
Definition merged_by (i : nat) (before after : Task) (l : list nat) : list nat :=
  match before, after with
  | AwaitRead _ _, Resolved => l ++ [i]
  | _, _ => l
  end.

(** The pending callback of the [i]-th file fires. *)
Definition advance (i : nat) (r : Run) : Run :=
  match run_tasks r !! i with
  | Some (AwaitStat p g last) =>
      let '(st, t) := on_stat i p g last (run_state r) in
      mkRun st (<[i := t]> (run_tasks r)) (settle t (run_rejected r)) (run_merged r)
  | Some (AwaitRead p g) =>
      let '(st, t) := on_read p g (run_state r) in
      mkRun st (<[i := t]> (run_tasks r)) (settle t (run_rejected r))
            (merged_by i (AwaitRead p g) t (run_merged r))
  | _ => r
  end.

(** Every file in configured order, each brought to its end. *)
Definition in_order (n : nat) : list nat :=
  flat_map (λ i, [i; i]) (seq 0 n).

(** [Promise.all(that.files.map(item => that._reloadFile(item)))]: the
    callbacks fire in the order [sched] (file indices, one occurrence per
    callback); whatever is still pending afterwards completes in
    configured order, so [sched = []] is the run in configured order. *)
Definition reload_run (sched : list nat) (st : State) : Run :=
  let r0 := mkRun st (map _reloadFile (this_files (store st))) None [] in
  let r1 := fold_left (λ r i, advance i r) sched r0 in
  fold_left (λ r i, advance i r) (in_order (length (this_files (store st)))) r1.

(** [reload(callback)]: the argument of [callback], which is the first
    rejection, and the state when every callback of the run has fired.
    ([callback] itself runs as soon as [Promise.all] settles, so after a
    rejection the callbacks of the other files fire later; the operations
    below read nothing of the state in that case.) *)
Definition reload (sched : list nat) (st : State) : State * option JsError :=
  let r := reload_run sched st in
  (run_state r, run_rejected r).

(** [authenticate(user, password, cb)] *)
Definition authenticate (sched : list nat) (user password : string) (st : State)
  : State * (option JsError * AuthResult) :=
  let '(st, err) := reload sched st in
  match err with
  | Some e => (st, (if is_ENOENT e then None else Some e, ResUndefined))
  | None =>
      match this_users (store st) !! user with
      | None => (st, (None, ResFalse))
      | Some u =>
          if verifyPassword password (passwd u)
          then (st, (None, ResGroups (groups u)))
          else (st, (None, ResFalse))
      end
  end.

(** [!err] *)
Definition no_error (err : option JsError) : bool :=
  match err with None => true | Some _ => false end.

(** The local [cb] of [adduser] and [changePassword]: unlock first if
    [locked], ignore what unlocking reports, then [realCb(err, !err)]. *)
Definition cb (locked : bool) (pathPass : string) (err : option JsError)
    (st : State) : State * (option JsError * bool) :=
  if locked then
    let '(w, _) := Fs.unlockFile pathPass (world st) in
    (set_world w st, (err, no_error err))
  else (st, (err, no_error err)).

(** [_writeFile(body, cb)]: the error of the reload is dropped. *)
Definition _writeFile (sched : list nat) (body : string)
    (k : option JsError → State → State * (option JsError * bool))
    (st : State) : State * (option JsError * bool) :=
  let '(w, err) := Fs.writeFile (this_path (store st)) body (world st) in
  let st := set_world w st in
  match err with
  | Some e => k (Some e) st
  | None => let '(st, _) := reload sched st in k None st
  end.

(** [err && err.code !== 'ENOENT'] *)
Definition fatal (err : option JsError) : option JsError :=
  match err with
  | Some e => if is_ENOENT e then None else Some e
  | None => None
  end.

(** [(res || '').toString('utf8')] and [_stringToUt8(res)] *)
Definition _stringToUt8 (res : option string) : string := default "" res.

(** [adduser(user, password, realCb)] *)
Definition adduser (sched : list nat) (user password : string) (st : State)
  : State * (option JsError * bool) :=
  let pathPass := this_path (store st) in
  match sanityCheck user password verifyPassword
                    (this_users (store st)) (this_maxUsers (store st)) with
  | Some sanity => (st, (Some sanity, false))
  | None =>
      let '(w, (err, res)) := Fs.lockAndRead pathPass (world st) in
      let st := set_world w st in
      let locked := no_error err in
      match fatal err with
      | Some e => cb locked pathPass (Some e) st
      | None =>
          let body := _stringToUt8 res in
          let defaultUsers :=
            parseHTPasswd body (groupName (this_defaultConfig (store st)))
                          (this_users (store st)) in
          let st := set_users (assign (this_users (store st)) defaultUsers) st in
          match sanityCheck user password verifyPassword
                            (this_users (store st)) (this_maxUsers (store st)) with
          | Some sanity => cb locked pathPass (Some sanity) st
          | None =>
              match addUserToHTPasswd body user password with
              | inl e => cb locked pathPass (Some e) st
              | inr content => _writeFile sched content (cb locked pathPass) st
              end
          end
      end
  end.

(** [changePassword(user, password, newPassword, realCb)] *)
Definition changePassword (sched : list nat) (user password newPassword : string)
    (st : State) : State * (option JsError * bool) :=
  let '(w, (err, res)) := Fs.lockAndRead (this_path (store st)) (world st) in
  let st := set_world w st in
  let locked := no_error err in
  let pathPassFile := this_path (store st) in
  match fatal err with
  | Some e => cb locked pathPassFile (Some e) st
  | None =>
      let body := _stringToUt8 res in
      let defaultUsers :=
        parseHTPasswd body (groupName (this_defaultConfig (store st)))
                      (this_users (store st)) in
      let st := set_users (assign (this_users (store st)) defaultUsers) st in
      match defaultUsers !! user with
      | None => cb locked pathPassFile (Some err_user_not_found) st
      | Some _ =>
          match changePasswordToHTPasswd body user password newPassword with
          | inl e => cb locked pathPassFile (Some e) st
          | inr content => _writeFile sched content (cb locked pathPassFile) st
          end
      end
  end.

End HTPasswd.

(** ** A concrete set of helpers *)

Module Concrete.

(** Modelled from the spec: the pluggable [hash] and [verify] of section
    4.1, of which only the round trip is fixed ([verify p (hash p)] holds,
    a different password fails).  A tagged copy of the password serves. *)
Definition hash (plaintext : string) : string := "{PLAIN}" +:+ plaintext.

Definition verify (plaintext hashed : string) : bool :=
  bool_decide (hashed = hash plaintext).

Definition err_validation : JsError := mkError None "ValidationError".
Definition err_user_exists : JsError := mkError None "UserExists".
Definition err_max_users : JsError := mkError None "MaxUsersReached".

(** [count >= max] on numbers. *)
Definition reached (count : nat) (max : JsNumber) : bool :=
  match max with
  | Num z => bool_decide (z ≤ Z.of_nat count)%Z
  | NegInfinity => true
  | Infinity | NaN => false
  end.

Definition negative (n : JsNumber) : bool :=
  match n with
  | Num z => bool_decide (z < 0)%Z
  | NegInfinity => true
  | Infinity | NaN => false
  end.

(** Modelled from the spec: [sanityCheck] of [./utils] (section 4.1), not
    among the sources.  It fails if the user name or the password is
    empty, with UserExists if the name is already in the index, and with
    MaxUsersReached if the maximum is negative or the number of users has
    reached it; with a negative maximum it always fails with
    MaxUsersReached (section 8). *)
Definition sanity (user password : string) (vp : string → string → bool)
    (users : Users) (maxUsers : JsNumber) : option JsError :=
  if negative maxUsers then Some err_max_users
  else if negb (truthy_string user) || negb (truthy_string password) then Some err_validation
  else if bool_decide (is_Some (users !! user)) then Some err_user_exists
  else if reached (size users) maxUsers then Some err_max_users
  else None.

(** Modelled from the spec: [addUserToHTPasswd] of [./utils] (the spec's
    [serializeEntries]): a new [username:hash] line and a newline are
    appended to the content. *)
Definition serializeEntries (body user password : string) : JsError + string :=
  inr (body +:+ user +:+ ":" +:+ hash password +:+ String Codec.newline EmptyString).

Definition join_lines (ls : list string) : string :=
  match ls with
  | [] => EmptyString
  | l :: ls => fold_left (λ acc x, acc +:+ String Codec.newline EmptyString +:+ x) ls l
  end.

Definition rewrite_line (user newHash l : string) : string :=
  match Codec.parse_line l with
  | Some (u, _) => if bool_decide (u = user) then user +:+ ":" +:+ newHash else l
  | None => l
  end.

(** Modelled from the spec: [changePasswordToHTPasswd] of [./utils] (the
    spec's [updateEntry]): the hash field of the line of [user] is
    replaced by the hash of the new password, the other lines and their
    order are kept; it fails when no line was parsed for that name. *)
Definition updateEntry (body user password newPassword : string) : JsError + string :=
  if bool_decide (user ∈ (Codec.entries body).*1)
  then inr (join_lines (map (rewrite_line user (hash newPassword)) (Codec.split_lines body)))
  else inl err_user_not_found.

(** A stand-in for [Path.dirname] and [Path.resolve] of Node, enough for
    absolute configuration paths and relative file names. *)
Fixpoint dirname_go (s : string) : option string :=
  match s with
  | EmptyString => None
  | String c s' =>
      match dirname_go s' with
      | Some d => Some (String c d)
      | None => if Ascii.eqb c "/"%char then Some EmptyString else None
      end
  end.

Definition dirname (p : string) : string :=
  match dirname_go p with
  | Some EmptyString => "/"
  | Some d => d
  | None => "."
  end.

Definition resolve (dir f : string) : string :=
  match f with
  | String "/" _ => f
  | String "." (String "/" f') => dir +:+ "/" +:+ f'
  | _ => dir +:+ "/" +:+ f
  end.

#[global] Instance imports : Imports := {|
  verifyPassword := verify;
  parseHTPasswd := Codec.parseEntries;
  addUserToHTPasswd := serializeEntries;
  changePasswordToHTPasswd := updateEntry;
  sanityCheck := sanity;
  Path_dirname := dirname;
  Path_resolve := resolve
|}.

(** A [changePasswordToHTPasswd] that rejects nobody: the line of [user]
    is rewritten where there is one, and the content is returned in any
    case.  With it, a "User not found" of [changePassword] can only come
    from the check [changePassword] makes itself. *)
Definition updateEntry_unchecked (body user password newPassword : string)
  : JsError + string :=
  inr (join_lines (map (rewrite_line user (hash newPassword)) (Codec.split_lines body))).

(** The helpers of [imports], with that [changePasswordToHTPasswd]. *)
Definition imports_unchecked : Imports := {|
  verifyPassword := verify;
  parseHTPasswd := Codec.parseEntries;
  addUserToHTPasswd := serializeEntries;
  changePasswordToHTPasswd := updateEntry_unchecked;
  sanityCheck := sanity;
  Path_dirname := dirname;
  Path_resolve := resolve
|}.

(** The configuration of the README: an [admin] file and the default
    [developer] file. *)
Definition readme_files : list FileConf :=
  [ mkFileConf false "./htpasswd" "admin" None None;
    mkFileConf true "./dev-htpasswd" "developer" None None ].

Definition readme_conf : AuthConf := mkAuthConf (Some readme_files) None.

Definition self_path : string := "/verdaccio/config.yaml".

Definition nl : string := String Codec.newline EmptyString.

Definition empty_world : Fs.World :=
  Fs.mkWorld ∅ 0 1000%Z ∅ None None None [].

Definition with_file (p body : string) (ms : Z) (w : Fs.World) : Fs.World :=
  Fs.mkWorld (<[p := Fs.mkNode (inr ms) (inr body)]> (Fs.w_nodes w))
             (Fs.w_next_ref w) (Fs.w_clock w) (Fs.w_locked w)
             (Fs.w_lock_err w) (Fs.w_write_err w) (Fs.w_unlock_err w) (Fs.w_trace w).

End Concrete.

(** ** The store of the README and its disks *)

Module Scenario.
Import Concrete.

Definition admin_path : string := "/verdaccio/htpasswd".
Definition dev_path : string := "/verdaccio/dev-htpasswd".

Definition admin_conf : FileConf :=
  mkFileConf false "./htpasswd" "admin" (Some admin_path) None.
Definition dev_conf : FileConf :=
  mkFileConf true "./dev-htpasswd" "developer" (Some dev_path) None.

(** The store [new HTPasswd(readme_conf, ...)] builds. *)
Definition store0 : HTPasswd :=
  mkHTPasswd ∅ [admin_conf; dev_conf] dev_conf Infinity dev_path.

Definition EACCES : JsError := mkError (Some "EACCES") "EACCES: permission denied".

(** Both files on disk; [alice] is in both, [bob] in the admin file only. *)
Definition disk : Fs.World :=
  with_file admin_path ("alice:h1" +:+ nl +:+ "bob:hb" +:+ nl) 5
    (with_file dev_path ("alice:h2" +:+ nl) 6 empty_world).

(** Only the admin file on disk: the default file does not exist yet. *)
Definition disk_no_default : Fs.World :=
  with_file admin_path ("alice:h1" +:+ nl) 5 empty_world.

(** Only the default file on disk: the admin file is missing. *)
Definition disk_no_admin : Fs.World :=
  with_file dev_path ("alice:" +:+ hash "secret" +:+ nl) 6 empty_world.

(** The default file can be statted but not read. *)
Definition disk_unreadable : Fs.World :=
  Fs.mkWorld (<[dev_path := Fs.mkNode (inr 6%Z) (inl EACCES)]>
                (Fs.w_nodes (with_file admin_path ("alice:h1" +:+ nl) 5 empty_world)))
             0 1000%Z ∅ None None None [].

Definition fresh : State := mkState store0 disk.

(** After a first reload. *)
Definition loaded : State := (reload [] fresh).1.


Definition two_defaults : AuthConf :=
  mkAuthConf (Some [ mkFileConf true "./htpasswd" "admin" None None;
                     mkFileConf true "./dev-htpasswd" "developer" None None ]) None.

End Scenario.

(** * The vocabulary of the proofs *)

(** ** What a reload may change *)

(** The calls a reload makes: [stat] and [readFile]. *)
Definition is_probe (e : Fs.Event) : bool :=
  match e with
  | Fs.EvStat _ | Fs.EvReadFile _ => true
  | _ => false
  end.

(** Two file entries that differ at most in [lastTime]. *)
Definition same_conf (a b : FileConf) : Prop :=
  isDefault a = isDefault b ∧ file a = file b ∧
  groupName a = groupName b ∧ path a = path b.

(** What a reload may change: it stats and reads, allocates [Date]s,
    sets [lastTime], and adds or overwrites users. *)
Record extends (st st' : State) : Prop := mkExtends {
  ext_nodes : Fs.w_nodes (world st') = Fs.w_nodes (world st);
  ext_clock : Fs.w_clock (world st') = Fs.w_clock (world st);
  ext_locked : Fs.w_locked (world st') = Fs.w_locked (world st);
  ext_lock_err : Fs.w_lock_err (world st') = Fs.w_lock_err (world st);
  ext_write_err : Fs.w_write_err (world st') = Fs.w_write_err (world st);
  ext_unlock_err : Fs.w_unlock_err (world st') = Fs.w_unlock_err (world st);
  ext_ref : Fs.w_next_ref (world st) ≤ Fs.w_next_ref (world st');
  ext_trace : ∃ evs, Fs.w_trace (world st') = Fs.w_trace (world st) ++ evs ∧
                     Forall (λ e, is_probe e = true) evs;
  ext_path : this_path (store st') = this_path (store st);
  ext_default : this_defaultConfig (store st') = this_defaultConfig (store st);
  ext_max : this_maxUsers (store st') = this_maxUsers (store st);
  ext_files : Forall2 same_conf (this_files (store st)) (this_files (store st'));
  ext_users : dom (this_users (store st)) ⊆ dom (this_users (store st'))
}.

(** The part of [extends] that concerns the store alone. *)
Record keeps (s s' : HTPasswd) : Prop := mkKeeps {
  keeps_path : this_path s' = this_path s;
  keeps_default : this_defaultConfig s' = this_defaultConfig s;
  keeps_max : this_maxUsers s' = this_maxUsers s;
  keeps_files : Forall2 same_conf (this_files s) (this_files s');
  keeps_users : dom (this_users s) ⊆ dom (this_users s')
}.

(** ** The files as they are on disk *)

(** The content and the group of the [i]-th configured file, when the
    file can be read. *)
Definition buffer_of (st : State) (i : nat) : option (string * string) :=
  item ← this_files (store st) !! i;
  p ← path item;
  n ← Fs.w_nodes (world st) !! p;
  match Fs.node_data n with
  | inr buffer => Some (buffer, groupName item)
  | inl _ => None
  end.

(** Every [lastTime] of the store is a [Date] that an earlier [stat]
    created. *)
Definition dates_allocated (st : State) : Prop :=
  ∀ item d, item ∈ this_files (store st) → lastTime item = Some d →
            date_ref d < Fs.w_next_ref (world st).

(** [lastTime] of the [i]-th file of the store. *)
Definition lastTime_at (i : nat) (st : State) : option (option Date) :=
  lastTime <$> this_files (store st) !! i.

(** The error [e] is what [stat] or [readFile] reports for a configured
    file. *)
Definition error_of_file (st : State) (e : JsError) : Prop :=
  ∃ item p, item ∈ this_files (store st) ∧ path item = Some p ∧
    (Fs.w_nodes (world st) !! p = None ∧ is_ENOENT e = true ∨
     ∃ n, Fs.w_nodes (world st) !! p = Some n ∧
          (Fs.node_stat n = inl e ∨ Fs.node_data n = inl e)).

(** No node of the world reports an error. *)
Definition sound_nodes (st : State) : Prop :=
  ∀ q n, Fs.w_nodes (world st) !! q = Some n →
         (∀ e, Fs.node_stat n ≠ inl e) ∧ (∀ e, Fs.node_data n ≠ inl e).

(** ** The index as the spec describes it *)

(** The hash of user [u] in a file: the one on its last line for [u]. *)
Definition hash_in (body u : string) : option string :=
  last (omap (λ e : string * string, if bool_decide (e.1 = u) then Some e.2 else None)
             (Codec.entries body)).



(** ** Counting calls *)

(** The number of calls recorded in the trace that satisfy [f]. *)
Definition count_ev (f : Fs.Event → bool) (st : State) : nat :=
  length (List.filter f (Fs.w_trace (world st))).

(** One more call, or none. *)
Definition tick (b : bool) : nat := if b then 1 else 0.


(** A promise that is settled. *)
Definition is_done (t : Task) : bool :=
  match t with
  | Resolved | Rejected _ => true
  | _ => false
  end.

(** ** The files a reload works on *)

(** A [stat], a [readFile], on one of the paths [sel] selects. *)
Definition is_stat_on (sel : string → bool) (e : Fs.Event) : bool :=
  match e with Fs.EvStat p => sel p | _ => false end.

Definition is_readFile_on (sel : string → bool) (e : Fs.Event) : bool :=
  match e with Fs.EvReadFile p => sel p | _ => false end.

(** [fs.stat] succeeds on [p]. *)
Definition stat_ok (st : State) (p : string) : bool :=
  match Fs.w_nodes (world st) !! p with
  | Some n => match Fs.node_stat n with inr _ => true | inl _ => false end
  | None => false
  end.

(** [fs.readFile] succeeds on [p]. *)
Definition read_ok (st : State) (p : string) : bool :=
  match Fs.w_nodes (world st) !! p with
  | Some n => match Fs.node_data n with inr _ => true | inl _ => false end
  | None => false
  end.

(** [!!item.path], the path being one [sel] selects: the file is one
    [_reloadFile] stats, at a selected path. *)
Definition has_path_on (sel : string → bool) (item : FileConf) : bool :=
  match path item with
  | Some p => truthy_string p && sel p
  | None => false
  end.

(** The file has a path, which [sel] selects, and can be statted. *)
Definition statted_on (sel : string → bool) (st : State) (item : FileConf) : bool :=
  match path item with
  | Some p => truthy_string p && (stat_ok st p && sel p)
  | None => false
  end.

(** The file has no path, or can be statted and read. *)
Definition readable (st : State) (item : FileConf) : bool :=
  match path item with
  | Some p => negb (truthy_string p) || (stat_ok st p && read_ok st p)
  | None => true
  end.

(** The calls [fs.stat] still to come from a promise, and the calls
    [fs.readFile] still to come when no [stat] is skipped. *)
Definition stats_due (t : Task) : nat :=
  match t with AwaitStat _ _ _ => 1 | _ => 0 end.

(** The same on the paths [sel] selects. *)
Definition stats_due_on (sel : string → bool) (t : Task) : nat :=
  match t with AwaitStat p _ _ => tick (sel p) | _ => 0 end.

Definition reads_due_on (sel : string → bool) (st : State) (t : Task) : nat :=
  match t with
  | AwaitStat p _ _ => tick (stat_ok st p && sel p)
  | AwaitRead p _ => tick (sel p)
  | _ => 0
  end.

(** A [stat] or a [readFile] on the path of a configured file. *)
Definition on_configured (st : State) (e : Fs.Event) : Prop :=
  ∃ item p, item ∈ this_files (store st) ∧ path item = Some p ∧
            (e = Fs.EvStat p ∨ e = Fs.EvReadFile p).

(** The calls a mutation may make: those of a reload, and the lock, the
    write and the unlock on [p]. *)
Definition mutation_event (p : string) (e : Fs.Event) : Prop :=
  is_probe e = true ∨ e = Fs.EvLockAndRead p ∨
  (∃ body, e = Fs.EvWriteFile p body) ∨ e = Fs.EvUnlock p.


(** What a mutation working on [p] may do to the world: make the calls of
    [mutation_event], and change no file but [p]. *)
Definition touches (p : string) (st st' : State) : Prop :=
  (∃ evs, Fs.w_trace (world st') = Fs.w_trace (world st) ++ evs ∧
          Forall (mutation_event p) evs) ∧
  ∀ q, q ≠ p → Fs.w_nodes (world st') !! q = Fs.w_nodes (world st) !! q.

(** [this.path] and [this.defaultConfig] belong to an entry of
    [this.files] that is marked default. *)
Definition default_is_configured (s : HTPasswd) : Prop :=
  ∃ i item, this_files s !! i = Some item ∧ isDefault item = true ∧
            path item = Some (this_path s) ∧ truthy_string (this_path s) = true ∧
            same_conf item (this_defaultConfig s).

Section Vocabulary.
Context `{Imports}.

(** The callbacks of [reload] as a step relation. *)
Inductive step (i : nat) (r : Run) : Run → Prop :=
  | step_idle :
      (∀ p g last, run_tasks r !! i ≠ Some (AwaitStat p g last)) →
      (∀ p g, run_tasks r !! i ≠ Some (AwaitRead p g)) →
      step i r r
  | step_stat_err p g last w e :
      run_tasks r !! i = Some (AwaitStat p g last) →
      Fs.stat p (world (run_state r)) = (w, inl e) →
      step i r (mkRun (set_world w (run_state r)) (<[i := Rejected e]> (run_tasks r))
                      (settle (Rejected e) (run_rejected r)) (run_merged r))
  | step_stat_same p g last w mtime :
      run_tasks r !! i = Some (AwaitStat p g last) →
      Fs.stat p (world (run_state r)) = (w, inr mtime) →
      strict_eq_Date last mtime = true →
      step i r (mkRun (set_world w (run_state r)) (<[i := Resolved]> (run_tasks r))
                      (run_rejected r) (run_merged r))
  | step_stat_new p g last w mtime :
      run_tasks r !! i = Some (AwaitStat p g last) →
      Fs.stat p (world (run_state r)) = (w, inr mtime) →
      strict_eq_Date last mtime = false →
      step i r (mkRun (touch i mtime (set_world w (run_state r)))
                      (<[i := AwaitRead p g]> (run_tasks r))
                      (run_rejected r) (run_merged r))
  | step_read_err p g w e :
      run_tasks r !! i = Some (AwaitRead p g) →
      Fs.readFile p (world (run_state r)) = (w, inl e) →
      step i r (mkRun (set_world w (run_state r)) (<[i := Rejected e]> (run_tasks r))
                      (settle (Rejected e) (run_rejected r)) (run_merged r))
  | step_read_ok p g w buffer :
      run_tasks r !! i = Some (AwaitRead p g) →
      Fs.readFile p (world (run_state r)) = (w, inr buffer) →
      let users := this_users (store (run_state r)) in
      step i r (mkRun (set_users (assign users (parseHTPasswd buffer g users))
                                 (set_world w (run_state r)))
                      (<[i := Resolved]> (run_tasks r))
                      (run_rejected r) (run_merged r ++ [i])).

(** What the read callback of the [i]-th file does to the index. *)
Definition merge_file (st0 : State) (i : nat) (us : Users) : Users :=
  match buffer_of st0 i with
  | Some (buffer, g) => assign us (parseHTPasswd buffer g us)
  | None => us
  end.

(** The files of [order] merged one after the other into [us]. *)
Definition merge_all (st0 : State) (order : list nat) (us : Users) : Users :=
  fold_left (λ us i, merge_file st0 i us) order us.

(** What the promise of the [i]-th file says about the run: a pending
    promise carries the path, the group and the [lastTime] of its file and
    the file is not merged yet; a resolved one was merged, unless the file
    has no path; a rejected one has settled [Promise.all]. *)
Definition task_ok (st0 : State) (r : Run) (i : nat) (t : Task) : Prop :=
  ∃ item, this_files (store st0) !! i = Some item ∧
    match t with
    | AwaitStat p g last =>
        path item = Some p ∧ groupName item = g ∧ last = lastTime item ∧
        i ∉ run_merged r
    | AwaitRead p g =>
        path item = Some p ∧ groupName item = g ∧ i ∉ run_merged r
    | Resolved => i ∈ run_merged r ∨ _reloadFile item = Resolved
    | Rejected _ => is_Some (run_rejected r) ∧ i ∉ run_merged r
    end.

(** The invariant of a run started in [st0]: the index is [st0]'s with
    the files merged so far, each at most once. *)
Record inv (st0 : State) (r : Run) : Prop := mkInv {
  inv_ext : extends st0 (run_state r);
  inv_len : length (run_tasks r) = length (this_files (store st0));
  inv_users : this_users (store (run_state r))
              = merge_all st0 (run_merged r) (this_users (store st0));
  inv_nodup : NoDup (run_merged r);
  inv_bound : ∀ i, i ∈ run_merged r → i < length (this_files (store st0));
  inv_task : ∀ i t, run_tasks r !! i = Some t → task_ok st0 r i t
}.

(** The task of the [i]-th file always carries the path and the group of
    that file, and every rejection comes from a file. *)
Record tracks (st0 : State) (r : Run) : Prop := mkTracks {
  tr_ext : extends st0 (run_state r);
  tr_stat : ∀ i p g last, run_tasks r !! i = Some (AwaitStat p g last) →
            ∃ item, this_files (store st0) !! i = Some item ∧ path item = Some p;
  tr_read : ∀ i p g, run_tasks r !! i = Some (AwaitRead p g) →
            ∃ item, this_files (store st0) !! i = Some item ∧ path item = Some p;
  tr_rej : ∀ e, run_rejected r = Some e → error_of_file st0 e
}.

(** The state in which [adduser] and [changePassword] validate after the
    lock-and-read step: the content read merged into the index. *)
Definition merged_state (st : State) (w : Fs.World) (res : option string) : State :=
  let st := set_world w st in
  let defaultUsers :=
    parseHTPasswd (_stringToUt8 res) (groupName (this_defaultConfig (store st)))
                  (this_users (store st)) in
  set_users (assign (this_users (store st)) defaultUsers) st.

(** ** The life of a store *)

(** The calls a client of the class can make. *)
Inductive Call : Type :=
  | CallReload
  | CallAuthenticate (user password : string)
  | CallAdduser (user password : string)
  | CallChangePassword (user password newPassword : string).

(** The state after a call, its callbacks run in the order [sched]. *)
Definition perform (sched : list nat) (c : Call) (st : State) : State :=
  match c with
  | CallReload => (reload sched st).1
  | CallAuthenticate user password => (authenticate sched user password st).1
  | CallAdduser user password => (adduser sched user password st).1
  | CallChangePassword user password newPassword =>
      (changePassword sched user password newPassword st).1
  end.

(** Between two calls the rest of the system may change the files, the
    clock, the locks and what the next lock, write and unlock report; it
    cannot make [Date] objects of this process or calls in its name. *)
Definition edited_by_others (w w' : Fs.World) : Prop :=
  Fs.w_next_ref w' = Fs.w_next_ref w ∧ Fs.w_trace w' = Fs.w_trace w.

(** The states a store goes through: built by the constructor from
    [config], then any calls, with any edits by others in between. *)
Inductive reachable (config : AuthConf) (self_path : string) : State → Prop :=
  | reach_new s w :
      constructor config self_path = inr s → reachable config self_path (mkState s w)
  | reach_call sched c st :
      reachable config self_path st → reachable config self_path (perform sched c st)
  | reach_edit st w' :
      reachable config self_path st → edited_by_others (world st) w' →
      reachable config self_path (set_world w' st).

End Vocabulary.

(** * First checks *)

Example ex_entries :
  Codec.entries ("# users" +:+ Concrete.nl +:+ "alice:h1" +:+ Concrete.nl +:+ Concrete.nl
                 +:+ "junk" +:+ Concrete.nl +:+ "bob:h2:x" +:+ Concrete.nl)
  = [("alice", "h1"); ("bob", "h2:x")].
Proof. reflexivity. Qed.

Example ex_parseEntries :
  Codec.parseEntries ("alice:h1" +:+ Concrete.nl +:+ "alice:h2" +:+ Concrete.nl) "dev"
                     {["alice" := mkUser "h0" {["admin"]}]} !! "alice"
  = Some (mkUser "h2" {["admin"; "dev"]}).
Proof. by vm_compute. Qed.

Example ex_updateEntry :
  Concrete.updateEntry ("alice:h1" +:+ Concrete.nl +:+ "bob:h2" +:+ Concrete.nl) "bob" "old" "new"
  = inr ("alice:h1" +:+ Concrete.nl +:+ "bob:{PLAIN}new" +:+ Concrete.nl).
Proof. by vm_compute. Qed.

(** * The constructor *)

Section Constructor.
Context `{Imports}.

Lemma find_isDefault_resolve self_path (cfiles : list FileConf) :
  List.find isDefault (map (resolve_item self_path) cfiles)
  = resolve_item self_path <$> List.find isDefault cfiles.
Proof.
  induction cfiles as [|item cfiles IH]; [done|].
  cbn. destruct (isDefault item); [done|]. exact IH.
Qed.

Lemma find_isDefault_None (cfiles : list FileConf) :
  List.find isDefault cfiles = None ↔ Forall (λ item, isDefault item = false) cfiles.
Proof.
  induction cfiles as [|item cfiles IH]; cbn.
  - split; [constructor | done].
  - destruct (isDefault item) eqn:E.
    + split; [done|]. intros Hall. inversion Hall; congruence.
    + rewrite IH. split; [by constructor|]. by inversion 1.
Qed.

(** C9. The constructor stores [max_users || Infinity]: a missing
    [max_users] and a [max_users] of [0] both give [Infinity], so [0] is
    no limit of zero users, and so does every other falsy number; a
    non-zero number, negative ones included, is stored as it is. *)
Theorem constructor_maxUsers (config : AuthConf) (self_path : string) (s : HTPasswd) :
  constructor config self_path = inr s →
  (max_users config = None → this_maxUsers s = Infinity) ∧
  (max_users config = Some (Num 0%Z) → this_maxUsers s = Infinity) ∧
  (∀ n, max_users config = Some n → truthy_number n = false → this_maxUsers s = Infinity) ∧
  (∀ z, z ≠ 0%Z → max_users config = Some (Num z) → this_maxUsers s = Num z).
Proof.
  unfold constructor. intros Hs.
  assert (this_maxUsers s = or_number (max_users config) Infinity) as ->.
  { destruct (conf_files config) as [cfiles|]; [|done].
    case_bool_decide; [done|].
    destruct (List.find _ _) as [d|]; [|done].
    destruct (path d) as [p|]; [|done].
    destruct (truthy_string p); [|done]. by inversion Hs. }
  repeat split.
  - by intros ->.
  - by intros ->.
  - intros n -> Hn. cbn. by rewrite Hn.
  - intros z Hz ->. cbn. by destruct z.
Qed.

(** C7, as amended.  With [Path.resolve] returning a non-empty path, as
    Node's does, the constructor returns a store exactly when the list of
    files is present, non-empty and has at least one entry marked default;
    the first such entry, with its path resolved, becomes the default
    file.  Nothing is checked about further default entries. *)
Theorem constructor_succeeds_iff (config : AuthConf) (self_path : string) :
  (∀ dir f, truthy_string (Path_resolve dir f) = true) →
  (∀ s, constructor config self_path = inr s ↔
     ∃ cfiles d,
       conf_files config = Some cfiles ∧ cfiles ≠ [] ∧
       List.find isDefault cfiles = Some d ∧
       s = mkHTPasswd ∅ (map (resolve_item self_path) cfiles)
                      (resolve_item self_path d)
                      (or_number (max_users config) Infinity)
                      (Path_resolve (Path_dirname self_path) (file d))) ∧
  ((∃ e, constructor config self_path = inl e) ↔
     conf_files config = None ∨ conf_files config = Some [] ∨
     ∃ cfiles, conf_files config = Some cfiles ∧
               Forall (λ item, isDefault item = false) cfiles).
Proof.
  intros Hres. unfold constructor.
  destruct (conf_files config) as [cfiles|] eqn:Hfiles; cycle 1.
  { split.
    - intros s. split; [done|]. by intros (? & ? & ? & _).
    - split; [by left | by eexists]. }
  rewrite find_isDefault_resolve.
  destruct cfiles as [|item cfiles].
  { cbn. split.
    - intros s. split; [done|]. by intros (cf & d & [= <-] & Hne & _).
    - split; [by right; left | by eexists]. }
  rewrite bool_decide_eq_false_2 by done.
  destruct (List.find isDefault (item :: cfiles)) as [d|] eqn:Hfind; cbn [fmap option_fmap option_map].
  - cbn [path resolve_item]. rewrite Hres. split.
    + intros s. split.
      * intros [= <-]. exists (item :: cfiles), d. by repeat split.
      * intros (cf & d' & [= <-] & _ & Hd & ->). rewrite Hfind in Hd. by inversion Hd.
    + split; [by intros [e ?]|].
      intros [?|[?|(cf & [= <-] & Hall)]]; [done..|].
      apply find_isDefault_None in Hall. congruence.
  - split.
    + intros s. split; [done|]. intros (cf & d' & [= <-] & _ & Hd & _). congruence.
    + split; [|by eexists]. intros _. right; right.
      exists (item :: cfiles). split; [done|]. by apply find_isDefault_None.
Qed.

End Constructor.

(** * Reload *)

#[local] Instance same_conf_equiv : Equivalence same_conf.
Proof.
  split.
  - by intros a.
  - intros a b (?&?&?&?). by repeat split.
  - intros a b c (?&?&?&?) (?&?&?&?). repeat split; congruence.
Qed.

#[local] Instance extends_preorder : PreOrder extends.
Proof.
  split.
  - intros st. split; try done. by exists []; rewrite app_nil_r.
  - intros a b c [] []. split; try congruence; try (etrans; eassumption).
    destruct ext_trace0 as (e1 & He1 & ?), ext_trace1 as (e2 & He2 & ?).
    exists (e1 ++ e2). rewrite He2, He1, app_assoc. split; [done|]. by apply Forall_app.
Qed.

Lemma stat_inv (p : string) (w w' : Fs.World) (r : JsError + Date) :
  Fs.stat p w = (w', r) →
  (∃ e, r = inl e ∧ w' = Fs.log (Fs.EvStat p) w ∧
        (Fs.w_nodes w !! p = None ∧ e = enoent "stat" p ∨
         ∃ n, Fs.w_nodes w !! p = Some n ∧ Fs.node_stat n = inl e)) ∨
  (∃ n ms, r = inr (mkDate (Fs.w_next_ref w) ms) ∧
           w' = Fs.alloc (Fs.log (Fs.EvStat p) w) ∧
           Fs.w_nodes w !! p = Some n ∧ Fs.node_stat n = inr ms).
Proof.
  unfold Fs.stat. cbn. destruct (Fs.w_nodes w !! p) as [n|] eqn:Hn.
  - destruct (Fs.node_stat n) as [e|ms] eqn:Hs; intros [= <- <-].
    + left. exists e. repeat split; eauto.
    + right. exists n, ms. by repeat split.
  - intros [= <- <-]. left. eexists. repeat split; eauto.
Qed.

Lemma readFile_inv (p : string) (w w' : Fs.World) (r : JsError + string) :
  Fs.readFile p w = (w', r) →
  w' = Fs.log (Fs.EvReadFile p) w ∧
  (Fs.w_nodes w !! p = None ∧ r = inl (enoent "open" p) ∨
   ∃ n, Fs.w_nodes w !! p = Some n ∧ r = Fs.node_data n).
Proof.
  unfold Fs.readFile. cbn. destruct (Fs.w_nodes w !! p) as [n|] eqn:Hn;
    intros [= <- <-]; split; eauto.
Qed.

Section Reload.
Context `{Imports}.

Lemma settle_pending (t : Task) (rej : option JsError) :
  (∀ e, t ≠ Rejected e) → settle t rej = rej.
Proof. intros Ht. destruct rej, t; naive_solver. Qed.

Lemma advance_step (i : nat) (r : Run) : step i r (advance i r).
Proof.
  unfold advance.
  destruct (run_tasks r !! i) as [[p g last|p g| |e]|] eqn:Ht;
    try (by apply step_idle; intros; congruence).
  - unfold on_stat. destruct (Fs.stat p _) as [w [e|mtime]] eqn:Hs.
    + by eapply step_stat_err.
    + destruct (strict_eq_Date last mtime) eqn:Heq.
      * rewrite settle_pending by done. by eapply step_stat_same.
      * rewrite settle_pending by done. by eapply step_stat_new.
  - unfold on_read. destruct (Fs.readFile p _) as [w [e|buffer]] eqn:Hr.
    + by eapply step_read_err.
    + rewrite settle_pending by done. by eapply step_read_ok.
Qed.

Lemma advance_all_ind (P : Run → Prop) (l : list nat) (r : Run) :
  P r → (∀ i r, P r → P (advance i r)) →
  P (fold_left (λ r i, advance i r) l r).
Proof.
  intros Hr Hstep. revert r Hr.
  induction l as [|i l IH]; intros r Hr; [done|]. cbn. by apply IH, Hstep.
Qed.

Lemma reload_run_ind (P : Run → Prop) (sched : list nat) (st : State) :
  P (mkRun st (map _reloadFile (this_files (store st))) None []) →
  (∀ i r, P r → P (advance i r)) →
  P (reload_run sched st).
Proof.
  intros H0 Hstep. unfold reload_run.
  apply advance_all_ind; [|done]. by apply advance_all_ind.
Qed.

Lemma extends_log_probe (e : Fs.Event) (st : State) :
  is_probe e = true → extends st (set_world (Fs.log e (world st)) st).
Proof.
  intros He. split; try done. exists [e]. split; [done|]. by constructor.
Qed.

Lemma extends_alloc (w : Fs.World) (st : State) :
  extends (set_world w st) (set_world (Fs.alloc w) st).
Proof.
  split; try done; cbn; [lia|]. exists []. by rewrite app_nil_r.
Qed.

Lemma extends_touch (i : nat) (d : Date) (st : State) : extends st (touch i d st).
Proof.
  split; try done; cbn.
  - exists []. by rewrite app_nil_r.
  - apply Forall2_alter_r; [done|]. intros a b _ _ Hab.
    destruct Hab as (?&?&?&?). by repeat split.
Qed.

Lemma extends_assign (parsed : Users) (st : State) :
  extends st (set_users (assign (this_users (store st)) parsed) st).
Proof.
  split; try done; cbn.
  - exists []. by rewrite app_nil_r.
  - unfold assign. rewrite dom_union_L. set_solver.
Qed.

Lemma step_extends (i : nat) (r r' : Run) :
  step i r r' → extends (run_state r) (run_state r').
Proof.
  destruct 1 as [| p g last w e _ Hs | p g last w m _ Hs _ | p g last w m _ Hs _
                 | p g w e _ Hr | p g w buffer _ Hr]; cbn [run_state].
  - done.
  - apply stat_inv in Hs as [(e' & _ & -> & _)|(? & ? & [=] & _)].
    by apply extends_log_probe.
  - apply stat_inv in Hs as [(e' & [=] & _)|(n & ms & _ & -> & _)].
    etrans; [by apply (extends_log_probe (Fs.EvStat p))|]. apply extends_alloc.
  - apply stat_inv in Hs as [(e' & [=] & _)|(n & ms & _ & -> & _)].
    etrans; [by apply (extends_log_probe (Fs.EvStat p))|].
    etrans; [apply extends_alloc|]. apply extends_touch.
  - apply readFile_inv in Hr as [-> _]. by apply extends_log_probe.
  - apply readFile_inv in Hr as [-> _].
    etrans; [by apply (extends_log_probe (Fs.EvReadFile p))|]. apply extends_assign.
Qed.

Lemma reload_run_extends (sched : list nat) (st : State) :
  extends st (run_state (reload_run sched st)).
Proof.
  apply (reload_run_ind (λ r, extends st (run_state r))); [done|].
  intros i r Hr. etrans; [exact Hr|]. apply (step_extends i), advance_step.
Qed.

Lemma reload_extends (sched : list nat) (st : State) : extends st (reload sched st).1.
Proof. apply reload_run_extends. Qed.

End Reload.

(** * What every operation keeps *)

#[local] Instance keeps_preorder : PreOrder keeps.
Proof.
  split.
  - intros s. by split.
  - intros a b c [] []. split; try congruence; etrans; eassumption.
Qed.

Lemma extends_keeps (st st' : State) : extends st st' → keeps (store st) (store st').
Proof. intros []. by split. Qed.

Lemma keeps_assign (parsed : Users) (st : State) :
  keeps (store st) (store (set_users (assign (this_users (store st)) parsed) st)).
Proof. apply extends_keeps, extends_assign. Qed.

Section Operations.
Context `{Imports}.

Lemma cb_store (locked : bool) (p : string) (err : option JsError) (st : State) :
  store (cb locked p err st).1 = store st.
Proof.
  unfold cb. destruct locked; [|done]. by destruct (Fs.unlockFile _ _).
Qed.

Lemma cb_result (locked : bool) (p : string) (err : option JsError) (st : State) :
  (cb locked p err st).2 = (err, no_error err).
Proof.
  unfold cb. destruct locked; [|done]. by destruct (Fs.unlockFile _ _).
Qed.

Lemma _writeFile_keeps (sched : list nat) (body : string) (locked : bool)
    (p : string) (st : State) :
  keeps (store st) (store (_writeFile sched body (cb locked p) st).1).
Proof.
  unfold _writeFile. destruct (Fs.writeFile _ _ _) as [w [e|]].
  - by rewrite cb_store.
  - destruct (reload sched (set_world w st)) as [st' err] eqn:Hr.
    rewrite cb_store. change st' with (st', err).1. rewrite <-Hr.
    apply (extends_keeps (set_world w st)), reload_extends.
Qed.

Lemma reload_keeps (sched : list nat) (st : State) :
  keeps (store st) (store (reload sched st).1).
Proof. apply extends_keeps, reload_extends. Qed.

Lemma authenticate_keeps (sched : list nat) (user password : string) (st : State) :
  keeps (store st) (store (authenticate sched user password st).1).
Proof.
  unfold authenticate. pose proof (reload_keeps sched st) as Hk.
  destruct (reload sched st) as [st' [e|]]; [done|].
  destruct (this_users (store st') !! user) as [u|]; [|done].
  by destruct (verifyPassword _ _).
Qed.

Lemma adduser_keeps (sched : list nat) (user password : string) (st : State) :
  keeps (store st) (store (adduser sched user password st).1).
Proof.
  unfold adduser. destruct (sanityCheck _ _ _ _ _); [done|].
  destruct (Fs.lockAndRead _ _) as [w [err res]]. cbn [store set_world].
  destruct (fatal err); [by rewrite cb_store|].
  set (st1 := set_users _ _).
  assert (keeps (store st) (store st1)) as Hk.
  { apply (keeps_assign _ (set_world w st)). }
  destruct (sanityCheck _ _ _ _ _); [by rewrite cb_store|].
  destruct (addUserToHTPasswd _ _ _); [by rewrite cb_store|].
  etrans; [exact Hk|]. apply _writeFile_keeps.
Qed.

Lemma changePassword_keeps (sched : list nat) (user password newPassword : string)
    (st : State) :
  keeps (store st) (store (changePassword sched user password newPassword st).1).
Proof.
  unfold changePassword.
  destruct (Fs.lockAndRead _ _) as [w [err res]]. cbn [store set_world].
  destruct (fatal err); [by rewrite cb_store|].
  set (st1 := set_users _ _).
  assert (keeps (store st) (store st1)) as Hk.
  { apply (keeps_assign _ (set_world w st)). }
  destruct (_ !! user); [|by rewrite cb_store].
  destruct (changePasswordToHTPasswd _ _ _ _); [by rewrite cb_store|].
  etrans; [exact Hk|]. apply _writeFile_keeps.
Qed.

(** C6. No operation removes a user name from the index: every name in
    [this.users] before [reload], [authenticate], [adduser] or
    [changePassword] is still in it afterwards, whatever the order of the
    callbacks and whatever the helpers compute. *)
Theorem usernames_never_removed (sched : list nat) (user password newPassword : string)
    (st : State) :
  dom (this_users (store st)) ⊆ dom (this_users (store (reload sched st).1)) ∧
  dom (this_users (store st)) ⊆ dom (this_users (store (authenticate sched user password st).1)) ∧
  dom (this_users (store st)) ⊆ dom (this_users (store (adduser sched user password st).1)) ∧
  dom (this_users (store st))
    ⊆ dom (this_users (store (changePassword sched user password newPassword st).1)).
Proof.
  repeat split.
  - apply reload_keeps.
  - apply authenticate_keeps.
  - apply adduser_keeps.
  - apply changePassword_keeps.
Qed.

End Operations.

(** * The index after a reload *)

Section Merge.
Context `{Imports}.

Lemma inv_init (st0 : State) :
  inv st0 (mkRun st0 (map _reloadFile (this_files (store st0))) None []).
Proof.
  split; cbn.
  - done.
  - by rewrite length_map.
  - done.
  - constructor.
  - by intros i ?%elem_of_nil.
  - intros i t. rewrite list_lookup_fmap.
    destruct (this_files (store st0) !! i) as [item|] eqn:Hi; [|done].
    intros [= <-]. exists item. split; [done|]. unfold _reloadFile at 1.
    destruct (path item) as [p|] eqn:Hp; cycle 1.
    { right. unfold _reloadFile. by rewrite Hp. }
    destruct (truthy_string p) eqn:Ht.
    + repeat split; set_solver.
    + right. unfold _reloadFile. by rewrite Hp, Ht.
Qed.

Lemma settle_is_Some (t : Task) (rej : option JsError) :
  is_Some rej → is_Some (settle t rej).
Proof. intros [e ->]. by destruct t. Qed.

Lemma settle_Rejected (e : JsError) (rej : option JsError) :
  is_Some (settle (Rejected e) rej).
Proof. by destruct rej. Qed.

(** A step that does not touch the index or the list of merged files. *)
Lemma inv_step_quiet (st0 : State) (r : Run) (i : nat) (st' : State) (t : Task)
    (rej : option JsError) :
  inv st0 r →
  i < length (run_tasks r) →
  extends (run_state r) st' →
  this_users (store st') = this_users (store (run_state r)) →
  (is_Some (run_rejected r) → is_Some rej) →
  task_ok st0 (mkRun st' (<[i := t]> (run_tasks r)) rej (run_merged r)) i t →
  inv st0 (mkRun st' (<[i := t]> (run_tasks r)) rej (run_merged r)).
Proof.
  intros [Hext Hlen Hus Hnd Hb Htask] Hi Hst Heq Hrej Hok. split; cbn.
  - by etrans.
  - by rewrite length_insert.
  - by rewrite Heq.
  - done.
  - done.
  - intros j t'. destruct (decide (i = j)) as [<-|Hne].
    + rewrite list_lookup_insert_eq by done. by intros [= <-].
    + rewrite list_lookup_insert_ne by done. intros Hj.
      destruct (Htask j t' Hj) as (item & Hitem & Hj'). exists item. split; [done|].
      destruct t'; cbn in Hj' |- *; [naive_solver..|].
      destruct Hj' as [Hs ?]. eauto.
Qed.

Lemma stat_fresh (st0 : State) (r : Run) (item : FileConf) (p : string)
    (w : Fs.World) (mtime : Date) :
  dates_allocated st0 →
  extends st0 (run_state r) →
  item ∈ this_files (store st0) →
  Fs.stat p (world (run_state r)) = (w, inr mtime) →
  strict_eq_Date (lastTime item) mtime = false.
Proof.
  intros Hwf Hext Hitem Hs.
  apply stat_inv in Hs as [(e & [=] & _)|(n & ms & [= ->] & _)].
  destruct (lastTime item) as [d|] eqn:Hd; [|done]. cbn.
  apply Nat.eqb_neq. pose proof (Hwf item d Hitem Hd). pose proof (ext_ref _ _ Hext). lia.
Qed.

Lemma inv_step (st0 : State) (i : nat) (r r' : Run) :
  dates_allocated st0 → inv st0 r → step i r r' → inv st0 r'.
Proof.
  intros Hwf Hinv Hstep. pose proof (step_extends _ _ _ Hstep) as Hext'.
  destruct Hstep as [| p g last w e Ht Hs | p g last w m Ht Hs Heq | p g last w m Ht Hs Heq
                       | p g w e Ht Hr | p g w buffer Ht Hr]; [done|..].
  - apply inv_step_quiet; try done.
    + by eapply lookup_lt_Some.
    + apply settle_is_Some.
    + destruct (inv_task _ _ Hinv _ _ Ht) as (item & Hitem & _ & _ & _ & Hm).
      exists item. split; [done|]. split; [apply settle_Rejected|done].
  - destruct (inv_task _ _ Hinv _ _ Ht) as (item & Hitem & _ & _ & -> & Hm).
    rewrite (stat_fresh st0 r item p w m) in Heq; try done.
    + apply (inv_ext _ _ Hinv).
    + by eapply list_elem_of_lookup_2.
  - apply inv_step_quiet; try done.
    + by eapply lookup_lt_Some.
    + destruct (inv_task _ _ Hinv _ _ Ht) as (item & Hitem & ? & ? & _ & Hm).
      exists item. by repeat split.
  - apply inv_step_quiet; try done.
    + by eapply lookup_lt_Some.
    + apply settle_is_Some.
    + destruct (inv_task _ _ Hinv _ _ Ht) as (item & Hitem & _ & _ & Hm).
      exists item. split; [done|]. split; [apply settle_Rejected|done].
  - destruct Hinv as [Hext Hlen Hus Hnd Hb Htask].
    destruct (Htask _ _ Ht) as (item & Hitem & Hp & Hg & Hm).
    split; cbn.
    + by etrans.
    + by rewrite length_insert.
    + subst users. unfold merge_all in Hus |- *. rewrite fold_left_app. cbn.
      rewrite <-Hus. unfold merge_file, buffer_of. rewrite Hitem. cbn. rewrite Hp. cbn.
      apply readFile_inv in Hr as [_ [[_ [=]]|(n & Hn & Hdata)]].
      rewrite <-(ext_nodes _ _ Hext), Hn. cbn. rewrite <-Hdata, Hg. done.
    + apply NoDup_app. repeat split; [done| |apply NoDup_singleton].
      intros j Hj ->%list_elem_of_singleton. done.
    + intros j [Hj| ->%list_elem_of_singleton]%elem_of_app; [by apply Hb|].
      by eapply lookup_lt_Some.
    + intros j t'. destruct (decide (i = j)) as [<-|Hne].
      * rewrite list_lookup_insert_eq by (by eapply lookup_lt_Some).
        intros [= <-]. exists item. split; [done|]. left. cbn.
        rewrite elem_of_app, list_elem_of_singleton. by right.
      * rewrite list_lookup_insert_ne by done. intros Hj.
        destruct (Htask j t' Hj) as (item' & Hitem' & Ht'). exists item'. split; [done|].
        assert (j ∉ run_merged r → j ∉ run_merged r ++ [i]) as Hout.
        { rewrite elem_of_app, list_elem_of_singleton. clear -Hne. intuition. }
        assert (j ∈ run_merged r → j ∈ run_merged r ++ [i]) as Hin.
        { rewrite elem_of_app. by left. }
        clear -Ht' Hout Hin. destruct t'; cbn in Ht' |- *; intuition.
Qed.

Lemma reload_run_inv (sched : list nat) (st0 : State) :
  dates_allocated st0 → inv st0 (reload_run sched st0).
Proof.
  intros Hwf. apply reload_run_ind; [apply inv_init|].
  intros i r Hr. eapply inv_step; [done..|apply advance_step].
Qed.

End Merge.

(** ** Every promise is settled when [reload] calls back *)

Section Finish.
Context `{Imports}.

Lemma step_length (i : nat) (r r' : Run) :
  step i r r' → length (run_tasks r') = length (run_tasks r).
Proof. destruct 1; cbn; by rewrite ?length_insert. Qed.

Lemma step_other (i j : nat) (r r' : Run) :
  step i r r' → i ≠ j → run_tasks r' !! j = run_tasks r !! j.
Proof. destruct 1; intros Hne; cbn; by rewrite ?list_lookup_insert_ne. Qed.

Lemma step_done_stays (i j : nat) (r r' : Run) (t : Task) :
  step i r r' → run_tasks r !! j = Some t → is_done t = true →
  run_tasks r' !! j = Some t.
Proof.
  intros Hstep Hj Hd. destruct (decide (i = j)) as [<-|Hne].
  - destruct Hstep; [done|by simplify_eq..].
  - by rewrite (step_other i j r r').
Qed.

(** A pending promise needs at most two callbacks. *)
Lemma step_twice (i : nat) (r r1 r2 : Run) :
  step i r r1 → step i r1 r2 → i < length (run_tasks r) →
  ∃ t, run_tasks r2 !! i = Some t ∧ is_done t = true.
Proof.
  intros H1 H2 Hi.
  assert (∀ t, run_tasks r1 !! i = Some t → is_done t = true →
               ∃ t, run_tasks r2 !! i = Some t ∧ is_done t = true) as Hstay.
  { intros t Ht Hd. exists t. split; [|done]. by eapply step_done_stays. }
  destruct H1 as [Hns Hnr|p g last w e Ht|p g last w m Ht|p g last w m Ht ? ?|p g w e Ht|p g w b Ht];
    try (eapply Hstay; [cbn; by apply list_lookup_insert_eq|done]).
  - destruct (lookup_lt_is_Some_2 _ _ Hi) as [t Ht].
    destruct t; [by destruct (Hns _ _ _ Ht)|by destruct (Hnr _ _ Ht)|..];
      by eapply Hstay.
  - destruct H2; cbn in *;
      rewrite ?list_lookup_insert_eq in * by (by rewrite ?length_insert);
      try (eexists; split; [by apply list_lookup_insert_eq; rewrite length_insert|done]);
      naive_solver.
Qed.

Lemma advance_all_length (l : list nat) (r : Run) :
  length (run_tasks (fold_left (λ r i, advance i r) l r)) = length (run_tasks r).
Proof.
  apply (advance_all_ind (λ r', length (run_tasks r') = length (run_tasks r))); [done|].
  intros i r' <-. apply (step_length i), advance_step.
Qed.

Lemma advance_all_done_stays (l : list nat) (r : Run) (j : nat) (t : Task) :
  run_tasks r !! j = Some t → is_done t = true →
  run_tasks (fold_left (λ r i, advance i r) l r) !! j = Some t.
Proof.
  intros Hj Hd.
  apply (advance_all_ind (λ r', run_tasks r' !! j = Some t)); [done|].
  intros i r' Hr'. eapply step_done_stays; [apply advance_step|done..].
Qed.

Lemma in_order_done (a n : nat) (r : Run) (j : nat) :
  a ≤ j < a + n → j < length (run_tasks r) →
  ∃ t, run_tasks (fold_left (λ r i, advance i r)
                            (flat_map (λ i, [i; i]) (seq a n)) r) !! j = Some t ∧
       is_done t = true.
Proof.
  revert a r. induction n as [|n IH]; intros a r Hj Hlen; [lia|].
  cbn. destruct (decide (j = a)) as [->|Hne].
  - destruct (step_twice a r (advance a r) (advance a (advance a r)))
      as (t & Ht & Hd); [apply advance_step..|done|].
    exists t. split; [|done]. by apply advance_all_done_stays.
  - apply IH; [lia|]. by rewrite !(step_length _ _ _ (advance_step _ _)).
Qed.

Lemma reload_run_done (sched : list nat) (st : State) (j : nat) :
  j < length (this_files (store st)) →
  ∃ t, run_tasks (reload_run sched st) !! j = Some t ∧ is_done t = true.
Proof.
  intros Hj. unfold reload_run, in_order. apply in_order_done; [lia|].
  by rewrite advance_all_length; cbn; rewrite length_map.
Qed.



End Finish.

(** ** The merge, user by user *)


Lemma parseEntries_lookup (body g : string) (ex : Users) (u : string) :
  Codec.parseEntries body g ex !! u = Codec.tagged g ex u <$> hash_in body u.
Proof.
  unfold Codec.parseEntries, hash_in.
  assert (∀ l (acc : Users),
    fold_left (λ result (e : string * string),
                 <[e.1 := Codec.tagged g ex e.1 e.2]> result) l acc !! u
    = match last (omap (λ e : string * string,
                          if bool_decide (e.1 = u) then Some e.2 else None) l) with
      | Some h => Some (Codec.tagged g ex u h)
      | None => acc !! u
      end) as Hgen.
  { induction l as [|[u' h'] l IH]; intros acc; [done|].
    cbn [fold_left omap list_omap fst snd]. rewrite IH. case_bool_decide as Hu.
    - subst u'. rewrite last_cons. destruct (last _); [done|].
      by rewrite lookup_insert_eq.
    - destruct (last _); [done|]. by rewrite lookup_insert_ne. }
  rewrite Hgen. by destruct (last _).
Qed.

Lemma parseEntries_dom (body g : string) (ex : Users) (u : string) :
  is_Some (Codec.parseEntries body g ex !! u) ↔ u ∈ (Codec.entries body).*1.
Proof.
  rewrite parseEntries_lookup, fmap_is_Some. unfold hash_in.
  induction (Codec.entries body) as [|[u' h'] l IH]; cbn.
  - rewrite elem_of_nil. split; [by intros [? ?]|done].
  - rewrite elem_of_cons. case_bool_decide as Hu.
    + subst u'. rewrite last_cons. split; [by left|]. intros _. destruct (last _); eauto.
    + rewrite IH. naive_solver.
Qed.

Section Merged.
Context `{Imports}.
Hypothesis parse_spec : ∀ b g ex, parseHTPasswd b g ex = Codec.parseEntries b g ex.



End Merged.

Section Reloaded.
Context `{Imports}.





End Reloaded.

(** * The mutations *)

Lemma count_ev_log (f : Fs.Event → bool) (e : Fs.Event) (w : Fs.World) (st : State) :
  count_ev f (set_world (Fs.log e w) st) = count_ev f (set_world w st) + tick (f e).
Proof.
  unfold count_ev. cbn. rewrite List.filter_app, length_app. cbn.
  by destruct (f e).
Qed.

Lemma count_ev_extends (f : Fs.Event → bool) (st st' : State) :
  extends st st' → (∀ e, is_probe e = true → f e = false) →
  count_ev f st' = count_ev f st.
Proof.
  intros Hext Hf. destruct (ext_trace _ _ Hext) as (evs & Htr & Hall).
  unfold count_ev. rewrite Htr, List.filter_app, length_app.
  assert (List.filter f evs = []) as ->; [|cbn; lia].
  clear Htr. induction Hall as [|e evs He _ IH]; [done|]. cbn. by rewrite (Hf e He).
Qed.

Lemma lockAndRead_inv (p : string) (w w' : Fs.World) (err : option JsError)
    (res : option string) :
  Fs.lockAndRead p w = (w', (err, res)) →
  Fs.w_nodes w' = Fs.w_nodes w ∧ Fs.w_write_err w' = Fs.w_write_err w ∧
  Fs.w_trace w' = Fs.w_trace w ++ [Fs.EvLockAndRead p] ∧
  (err = None → p ∈ Fs.w_locked w' ∧ ∃ n, Fs.w_nodes w !! p = Some n ∧
                                           Fs.node_data n = inr (default "" res)).
Proof.
  unfold Fs.lockAndRead. cbn. destruct (Fs.w_lock_err w); [by intros [= <- <- <-]|].
  destruct (Fs.w_nodes w !! p) as [n|] eqn:Hn; [|by intros [= <- <- <-]].
  destruct (Fs.node_data n) eqn:Hd; intros [= <- <- <-]; [done|].
  cbn. repeat split; [set_solver|]. eauto.
Qed.

Section Mutations.
Context `{Imports}.

Lemma cb_world (locked : bool) (p : string) (err : option JsError) (st : State) :
  Fs.w_nodes (world (cb locked p err st).1) = Fs.w_nodes (world st) ∧
  Fs.w_trace (world (cb locked p err st).1)
  = Fs.w_trace (world st) ++ (if locked then [Fs.EvUnlock p] else []).
Proof.
  unfold cb, Fs.unlockFile. destruct locked; cbn; [|by rewrite app_nil_r].
  by destruct (Fs.w_unlock_err (world st)).
Qed.

Lemma cb_count (f : Fs.Event → bool) (locked : bool) (p : string)
    (err : option JsError) (st : State) :
  count_ev f (cb locked p err st).1 = count_ev f st + tick (locked && f (Fs.EvUnlock p)).
Proof.
  unfold count_ev. destruct (cb_world locked p err st) as [_ ->].
  rewrite List.filter_app, length_app. destruct locked; cbn; [|done].
  by destruct (f _).
Qed.

(** What [_writeFile] reports does not depend on the reload it triggers. *)
Lemma _writeFile_result (sched : list nat) (body : string) (locked : bool)
    (p : string) (st : State) :
  (_writeFile sched body (cb locked p) st).2
  = (Fs.w_write_err (world st), no_error (Fs.w_write_err (world st))).
Proof.
  unfold _writeFile, Fs.writeFile. cbn.
  destruct (Fs.w_write_err (world st)) as [e|]; by rewrite cb_result.
Qed.

Lemma _writeFile_count (f : Fs.Event → bool) (sched : list nat) (body : string)
    (locked : bool) (p : string) (st : State) :
  (∀ e, is_probe e = true → f e = false) →
  count_ev f (_writeFile sched body (cb locked p) st).1
  = count_ev f st + tick (f (Fs.EvWriteFile (this_path (store st)) body))
    + tick (locked && f (Fs.EvUnlock p)).
Proof.
  intros Hf. unfold _writeFile, Fs.writeFile. cbn -[reload cb].
  destruct (Fs.w_write_err (world st)) as [e|].
  - by rewrite cb_count, count_ev_log; destruct st.
  - destruct (reload sched _) as [st' err] eqn:Hr. rewrite cb_count.
    change st' with (st', err).1. rewrite <-Hr.
    rewrite (count_ev_extends f _ _ (reload_extends sched _) Hf).
    unfold count_ev. cbn. rewrite List.filter_app, length_app. cbn.
    by destruct (f _).
Qed.

Lemma set_users_count (f : Fs.Event → bool) (us : Users) (st : State) :
  count_ev f (set_users us st) = count_ev f st.
Proof. done. Qed.

End Mutations.

Section Pipeline.
Context `{Imports}.

Lemma lockAndRead_count (f : Fs.Event → bool) (st : State) (w : Fs.World)
    (r : option JsError * option string) :
  Fs.lockAndRead (this_path (store st)) (world st) = (w, r) →
  count_ev f (set_world w st)
  = count_ev f st + tick (f (Fs.EvLockAndRead (this_path (store st)))).
Proof.
  destruct r as [err res]. intros (_ & _ & Htr & _)%lockAndRead_inv.
  unfold count_ev. cbn. rewrite Htr, List.filter_app, length_app. cbn.
  by destruct (f _).
Qed.









End Pipeline.

Section Validation.
Context `{Imports}.

(** A rejection after the lock-and-read step: the error is reported, the
    index is the merged one, and nothing was written. *)
Lemma rejected_after_read (st : State) (w : Fs.World) (err : option JsError)
    (res : option string) (e : JsError) :
  Fs.lockAndRead (this_path (store st)) (world st) = (w, (err, res)) →
  let out := cb (no_error err) (this_path (store st)) (Some e) (merged_state st w res) in
  out.2 = (Some e, false) ∧
  count_ev Fs.is_write out.1 = count_ev Fs.is_write st ∧
  Fs.w_nodes (world out.1) = Fs.w_nodes (world st) ∧
  this_users (store out.1) = this_users (store (merged_state st w res)).
Proof.
  intros Hl out. subst out. rewrite cb_result, cb_count, cb_store.
  destruct (cb_world (no_error err) (this_path (store st)) (Some e) (merged_state st w res))
    as [-> _].
  pose proof (lockAndRead_count Fs.is_write st w _ Hl) as Hc.
  apply lockAndRead_inv in Hl as (Hn & _).
  unfold merged_state. rewrite set_users_count, Hc. cbn.
  rewrite andb_false_r. cbn. repeat split; [lia|done].
Qed.

(** C8, as amended.  [adduser] validates twice: against the cached index
    before any call to the file system, and, after the lock-and-read
    step, against the index with the content read merged in, before any
    write.  [changePassword] validates once only, after the lock-and-read
    step: its first action is always [lockAndRead].  In both, a failed
    validation after the read means that nothing is written. *)
Theorem validation_before_write (sched : list nat) (user password newPassword : string)
    (st : State) :
  let check us := sanityCheck user password verifyPassword us (this_maxUsers (store st)) in
  (∀ e, check (this_users (store st)) = Some e →
        adduser sched user password st = (st, (Some e, false))) ∧
  (∀ w err res e,
     check (this_users (store st)) = None →
     Fs.lockAndRead (this_path (store st)) (world st) = (w, (err, res)) →
     fatal err = None →
     check (this_users (store (merged_state st w res))) = Some e →
     let out := adduser sched user password st in
     out.2 = (Some e, false) ∧
     count_ev Fs.is_write out.1 = count_ev Fs.is_write st ∧
     Fs.w_nodes (world out.1) = Fs.w_nodes (world st)) ∧
  (∃ evs, Fs.w_trace (world (changePassword sched user password newPassword st).1)
          = Fs.w_trace (world st) ++ Fs.EvLockAndRead (this_path (store st)) :: evs) ∧
  (∀ w err res,
     Fs.lockAndRead (this_path (store st)) (world st) = (w, (err, res)) →
     fatal err = None →
     parseHTPasswd (_stringToUt8 res) (groupName (this_defaultConfig (store st)))
                   (this_users (store st)) !! user = None →
     let out := changePassword sched user password newPassword st in
     out.2 = (Some err_user_not_found, false) ∧
     count_ev Fs.is_write out.1 = count_ev Fs.is_write st ∧
     Fs.w_nodes (world out.1) = Fs.w_nodes (world st)).
Proof.
  cbv zeta. repeat apply conj.
  - intros e He. unfold adduser. by rewrite He.
  - intros w err res e Hpre Hl Hf Hpost.
    destruct (rejected_after_read st w err res e Hl) as (Hr & Hc & Hn & _).
    unfold adduser. rewrite Hpre, Hl. cbn [store set_world]. rewrite Hf.
    unfold merged_state in *.
    cbn [store set_world set_users this_maxUsers this_users] in *. by rewrite Hpost.
  - unfold changePassword.
    destruct (Fs.lockAndRead _ _) as [w [err res]] eqn:Hl.
    apply lockAndRead_inv in Hl as (_ & _ & Htr & _). cbn [store set_world].
    assert (∀ k locked e st', Fs.w_trace (world st') = Fs.w_trace w ++ k →
              ∃ evs, Fs.w_trace (world (cb locked (this_path (store st)) e st').1)
                     = Fs.w_trace (world st) ++ Fs.EvLockAndRead (this_path (store st)) :: evs)
      as Hcb.
    { intros k locked e st' Hst'.
      destruct (cb_world locked (this_path (store st)) e st') as [_ ->].
      rewrite Hst', Htr, <-!app_assoc. by eexists. }
    destruct (fatal err); [by apply (Hcb []); rewrite app_nil_r|].
    destruct (_ !! user); [|by apply (Hcb []); rewrite app_nil_r].
    destruct (changePasswordToHTPasswd _ _ _ _) as [e|content];
      [by apply (Hcb []); rewrite app_nil_r|].
    unfold _writeFile. destruct (Fs.writeFile _ _ _) as [w' werr] eqn:Hw.
    assert (Fs.w_trace w' = Fs.w_trace w ++ [Fs.EvWriteFile (this_path (store st)) content])
      as Hw'.
    { unfold Fs.writeFile in Hw. cbn in Hw.
      destruct (Fs.w_write_err w); by injection Hw as <- <-. }
    destruct werr; [by eapply Hcb|].
    destruct (reload sched _) as [st' rerr] eqn:Hr.
    pose proof (reload_extends sched (set_world w' (set_users
      (assign (this_users (store st))
         (parseHTPasswd (_stringToUt8 res) (groupName (this_defaultConfig (store st)))
            (this_users (store st)))) (set_world w st)))) as Hext.
    cbn [store set_world set_users] in Hr. cbn [store set_world set_users] in Hext.
    rewrite Hr in Hext. destruct (ext_trace _ _ Hext) as (evs & Hevs & _).
    cbn in Hevs. eapply Hcb. rewrite Hevs, Hw', <-app_assoc. done.
  - intros w err res Hl Hf Hnone.
    destruct (rejected_after_read st w err res err_user_not_found Hl) as (Hr & Hc & Hn & _).
    unfold changePassword. rewrite Hl. cbn [store set_world]. rewrite Hf.
    unfold merged_state in *. cbn [store set_world] in *. by rewrite Hnone.
Qed.

(** C4, as amended.  The helpers parsing as the spec says, and the
    lock-and-read step reporting no error other than ENOENT:
    [changePassword] looks the user up in the entries parsed from the
    default file, not in the merged index.  A user without a line in the
    default file gets "User not found" and nothing is written, even when
    another file put it in the index; that covers every user absent from
    the merged index.  A user with a line in the default file passes, and
    the write is attempted. *)
Theorem changePassword_checks_default_file (sched : list nat)
    (user password newPassword : string) (st : State) (w : Fs.World)
    (err : option JsError) (res : option string) :
  (∀ b g ex, parseHTPasswd b g ex = Codec.parseEntries b g ex) →
  Fs.lockAndRead (this_path (store st)) (world st) = (w, (err, res)) →
  fatal err = None →
  let body := _stringToUt8 res in
  let merged := this_users (store (merged_state st w res)) in
  let out := changePassword sched user password newPassword st in
  (user ∉ (Codec.entries body).*1 →
     out.2 = (Some err_user_not_found, false) ∧
     count_ev Fs.is_write out.1 = count_ev Fs.is_write st ∧
     Fs.w_nodes (world out.1) = Fs.w_nodes (world st) ∧
     this_users (store out.1) = merged) ∧
  (merged !! user = None → user ∉ (Codec.entries body).*1) ∧
  (user ∈ (Codec.entries body).*1 →
     ∀ content, changePasswordToHTPasswd body user password newPassword = inr content →
       count_ev Fs.is_write out.1 = S (count_ev Fs.is_write st) ∧
       out.2 = (Fs.w_write_err (world st), no_error (Fs.w_write_err (world st)))).
Proof.
  intros Hparse Hl Hf. cbv zeta.
  assert (parseHTPasswd (_stringToUt8 res) (groupName (this_defaultConfig (store st)))
            (this_users (store st)) !! user = None
          ↔ user ∉ (Codec.entries (_stringToUt8 res)).*1) as Hdom.
  { rewrite Hparse, <-parseEntries_dom, eq_None_not_Some. done. }
  repeat apply conj.
  - intros Hnot%Hdom.
    destruct (rejected_after_read st w err res err_user_not_found Hl) as (Hr & Hc & Hn & Hu).
    unfold changePassword. rewrite Hl. cbn [store set_world]. rewrite Hf.
    unfold merged_state in *. cbn [store set_world] in *. by rewrite Hnot.
  - unfold merged_state, assign. cbn.
    intros [Hnone _]%lookup_union_None. by apply Hdom.
  - intros Hin content Hcontent.
    assert (is_Some (parseHTPasswd (_stringToUt8 res)
                       (groupName (this_defaultConfig (store st)))
                       (this_users (store st)) !! user)) as [u Hu].
    { rewrite Hparse. by apply parseEntries_dom. }
    pose proof (lockAndRead_count Fs.is_write st w _ Hl) as Hc.
    apply lockAndRead_inv in Hl as Hl'. destruct Hl' as (_ & Hwe & _).
    unfold changePassword. rewrite Hl. cbn [store set_world]. rewrite Hf.
    rewrite Hu, Hcontent. split.
    + rewrite _writeFile_count by (by intros []). rewrite set_users_count, Hc. cbn.
      rewrite andb_false_r. cbn. lia.
    + rewrite _writeFile_result. cbn. by rewrite Hwe.
Qed.

End Validation.

(** * One file during a reload *)

Section OneFile.
Context `{Imports}.

Lemma step_frame (i j : nat) (r r' : Run) :
  step j r r' → j ≠ i →
  run_tasks r' !! i = run_tasks r !! i ∧
  lastTime_at i (run_state r') = lastTime_at i (run_state r).
Proof.
  intros Hstep Hne. split; [by eapply step_other|].
  unfold lastTime_at. destruct Hstep; cbn; try done.
  by rewrite list_lookup_alter_ne.
Qed.

Lemma step_rejected_mono (j : nat) (r r' : Run) :
  step j r r' → is_Some (run_rejected r) → is_Some (run_rejected r').
Proof. destruct 1; cbn; try done; apply settle_is_Some. Qed.

Lemma settle_Some (t : Task) (rej : option JsError) (e : JsError) :
  settle t rej = Some e → rej = Some e ∨ t = Rejected e.
Proof. destruct rej, t; cbn; naive_solver. Qed.

Lemma stat_error_of_file (st0 : State) (w w' : Fs.World) (i : nat) (item : FileConf)
    (p : string) (e : JsError) :
  Fs.w_nodes w = Fs.w_nodes (world st0) →
  this_files (store st0) !! i = Some item → path item = Some p →
  Fs.stat p w = (w', inl e) → error_of_file st0 e.
Proof.
  intros Hn Hi Hp Hs. exists item, p. split; [by eapply list_elem_of_lookup_2|].
  split; [done|]. rewrite <-Hn.
  apply stat_inv in Hs as [(e' & [= <-] & _ & [[? ->]|(n & ? & ?)])|(? & ? & [=] & _)].
  - by left.
  - right. eauto.
Qed.

Lemma read_error_of_file (st0 : State) (w w' : Fs.World) (i : nat) (item : FileConf)
    (p : string) (e : JsError) :
  Fs.w_nodes w = Fs.w_nodes (world st0) →
  this_files (store st0) !! i = Some item → path item = Some p →
  Fs.readFile p w = (w', inl e) → error_of_file st0 e.
Proof.
  intros Hn Hi Hp Hr. exists item, p. split; [by eapply list_elem_of_lookup_2|].
  split; [done|]. rewrite <-Hn.
  apply readFile_inv in Hr as [_ [[? [= ->]]|(n & ? & ?)]].
  - by left.
  - right. eauto.
Qed.

Lemma tracks_update (st0 : State) (r : Run) (i : nat) (st' : State) (t : Task)
    (rej : option JsError) (merged : list nat) :
  tracks st0 r → extends (run_state r) st' →
  (∀ p g last, t ≠ AwaitStat p g last) →
  (∀ p g, t = AwaitRead p g →
     ∃ item, this_files (store st0) !! i = Some item ∧ path item = Some p) →
  (∀ e, rej = Some e → run_rejected r = Some e ∨ error_of_file st0 e) →
  tracks st0 (mkRun st' (<[i := t]> (run_tasks r)) rej merged).
Proof.
  intros [Hext Hst Hrd Hrej] Hext' Hns Hr Hrej'.
  assert (∀ j t', <[i := t]> (run_tasks r) !! j = Some t' →
            run_tasks r !! j = Some t' ∨ (j = i ∧ t' = t)) as Hins.
  { intros j t'. destruct (decide (i = j)) as [<-|Hne].
    - destruct (decide (i < length (run_tasks r))).
      + rewrite list_lookup_insert_eq by done. intros [= <-]. by right.
      + rewrite list_insert_ge by lia. by left.
    - rewrite list_lookup_insert_ne by done. by left. }
  split; cbn.
  - by etrans.
  - intros j p g last [Hj|[-> <-]]%Hins; [eauto|]. by destruct (Hns p g last).
  - intros j p g [Hj|[-> <-]]%Hins; eauto.
  - intros e [He|He]%Hrej'; eauto.
Qed.

Lemma tracks_step (st0 : State) (i : nat) (r r' : Run) :
  tracks st0 r → step i r r' → tracks st0 r'.
Proof.
  intros Htr Hstep. pose proof (step_extends _ _ _ Hstep) as Hext'.
  destruct Hstep as [| p g last w e Ht Hs | p g last w m Ht Hs Heq | p g last w m Ht Hs Heq
                       | p g w e Ht Hr | p g w buffer Ht Hr]; [done|..];
    apply tracks_update; try done; try (by left).
  - intros e' [?|[= <-]]%settle_Some; [by left|]. right.
    destruct (tr_stat _ _ Htr _ _ _ _ Ht) as (item & Hi & Hp).
    eapply stat_error_of_file; [apply (ext_nodes _ _ (tr_ext _ _ Htr))|done..].
  - intros p' g' [= <- <-]. eapply tr_stat; eauto.
  - intros e' [?|[= <-]]%settle_Some; [by left|]. right.
    destruct (tr_read _ _ Htr _ _ _ Ht) as (item & Hi & Hp).
    eapply read_error_of_file; [apply (ext_nodes _ _ (tr_ext _ _ Htr))|done..].
Qed.

Lemma tracks_init (st0 : State) :
  tracks st0 (mkRun st0 (map _reloadFile (this_files (store st0))) None []).
Proof.
  assert (∀ i t, _reloadFile <$> this_files (store st0) !! i = Some t →
            (∀ p g, t ≠ AwaitRead p g) ∧
            ∀ p g last, t = AwaitStat p g last →
              ∃ item, this_files (store st0) !! i = Some item ∧ path item = Some p) as Hinit.
  { intros i t. destruct (this_files (store st0) !! i) as [item|]; [|done].
    intros [= <-]. unfold _reloadFile. destruct (path item) as [p|] eqn:Hp; [|done].
    destruct (truthy_string p); [|done]. split; [done|]. intros ? ? ? [= <- _ _]. eauto. }
  split; cbn.
  - done.
  - intros i p g last. rewrite list_lookup_fmap. intros Ht. by eapply Hinit.
  - intros i p g. rewrite list_lookup_fmap. intros Ht.
    by destruct (proj1 (Hinit _ _ Ht) p g).
  - done.
Qed.

Lemma reload_run_tracks (sched : list nat) (st : State) : tracks st (reload_run sched st).
Proof.
  apply reload_run_ind; [apply tracks_init|].
  intros i r Hr. eapply tracks_step; [done|apply advance_step].
Qed.

(** An error reported by [reload] is the error of one of the files. *)
Lemma reload_error_of_file (sched : list nat) (st : State) (e : JsError) :
  (reload sched st).2 = Some e → error_of_file st e.
Proof. apply (tr_rej _ _ (reload_run_tracks sched st)). Qed.

End OneFile.

Section Trajectory.
Context `{Imports}.

(** A configured file that does not exist makes [reload] fail, whether it
    is the default file or not. *)
Lemma reload_missing_file_fails (sched : list nat) (st : State) (i : nat)
    (item : FileConf) (p : string) :
  this_files (store st) !! i = Some item →
  path item = Some p → truthy_string p = true →
  Fs.w_nodes (world st) !! p = None →
  is_Some (reload sched st).2.
Proof.
  intros Hi Hp Htr Hnone.
  set (Q := λ r : Run,
    extends st (run_state r) ∧
    ((∃ g last, run_tasks r !! i = Some (AwaitStat p g last)) ∨
     (∃ e, run_tasks r !! i = Some (Rejected e)) ∧ is_Some (run_rejected r))).
  assert (Q (reload_run sched st)) as [_ [(g & last & Ht)|[_ Hrej]]]; [|..|done].
  { apply reload_run_ind.
    - split; [done|]. left. cbn. rewrite list_lookup_fmap, Hi. cbn.
      unfold _reloadFile. rewrite Hp, Htr. eauto.
    - intros j r [Hext Hq]. pose proof (advance_step j r) as Hstep.
      split; [etrans; [done|by eapply step_extends]|].
      destruct (decide (j = i)) as [->|Hne]; cycle 1.
      { destruct (step_frame i j _ _ Hstep Hne) as [-> _].
        destruct Hq as [?|[? ?]]; [by left|right].
        split; [done|by eapply step_rejected_mono]. }
      destruct Hq as [(g & last & Ht)|[[e Ht] Hrej]].
      + right. assert (Fs.w_nodes (world (run_state r)) !! p = None) as Hn.
        { by rewrite (ext_nodes _ _ Hext). }
        destruct Hstep as [Hns _|p' g' l' w e Ht' Hs|p' g' l' w m Ht' Hs|p' g' l' w m Ht' Hs ?
                          |? ? ? ? Ht'|? ? ? ? Ht']; cbn; simplify_eq.
        * by destruct (Hns _ _ _ Ht).
        * split; [|apply settle_Rejected]. exists e.
          apply list_lookup_insert_eq. by eapply lookup_lt_Some.
        * apply stat_inv in Hs as [(? & [=] & _)|(? & ? & _ & _ & ? & _)]; congruence.
        * apply stat_inv in Hs as [(? & [=] & _)|(? & ? & _ & _ & ? & _)]; congruence.
      + right. split; [|by eapply step_rejected_mono].
        exists e. eapply step_done_stays; [done..|done]. }
  destruct (reload_run_done sched st i) as (t & Ht' & Hd).
  { by eapply lookup_lt_Some. }
  rewrite Ht in Ht'. by simplify_eq.
Qed.

(** The fate of a file that can be statted but not read. *)
Lemma reload_unreadable_file (sched : list nat) (st : State) (i : nat)
    (item : FileConf) (p : string) (ms : Z) (e : JsError) :
  this_files (store st) !! i = Some item →
  path item = Some p → truthy_string p = true →
  Fs.w_nodes (world st) !! p = Some (Fs.mkNode (inr ms) (inl e)) →
  (∀ d, lastTime item = Some d → date_ref d < Fs.w_next_ref (world st)) →
  is_Some (reload sched st).2 ∧
  ∃ d, lastTime_at i (reload sched st).1 = Some (Some d) ∧ date_ms d = ms ∧
       Fs.w_next_ref (world st) ≤ date_ref d.
Proof.
  intros Hi Hp Htr Hnode Hfresh.
  set (stamped := λ r : Run,
    ∃ d, lastTime_at i (run_state r) = Some (Some d) ∧ date_ms d = ms ∧
         Fs.w_next_ref (world st) ≤ date_ref d).
  set (Q := λ r : Run,
    extends st (run_state r) ∧
    ((∃ g, run_tasks r !! i = Some (AwaitStat p g (lastTime item))) ∧
       lastTime_at i (run_state r) = Some (lastTime item) ∨
     (∃ g, run_tasks r !! i = Some (AwaitRead p g)) ∧ stamped r ∨
     run_tasks r !! i = Some (Rejected e) ∧ is_Some (run_rejected r) ∧ stamped r)).
  assert (Q (reload_run sched st)) as [_ Hq].
  { apply reload_run_ind.
    - split; [done|]. left. cbn. rewrite list_lookup_fmap, Hi. cbn.
      unfold _reloadFile, lastTime_at. rewrite Hp, Htr, Hi. eauto.
    - intros j r [Hext Hq]. pose proof (advance_step j r) as Hstep.
      split; [etrans; [done|by eapply step_extends]|].
      destruct (decide (j = i)) as [->|Hne]; cycle 1.
      { unfold stamped. destruct (step_frame i j _ _ Hstep Hne) as [-> ->].
        destruct Hq as [?|[?|(? & ? & ?)]]; [by left|by right; left|right; right].
        repeat split; [done| |done]. by eapply step_rejected_mono. }
      assert (Fs.w_nodes (world (run_state r)) !! p = Some (Fs.mkNode (inr ms) (inl e))) as Hn.
      { by rewrite (ext_nodes _ _ Hext). }
      destruct Hq as [[[g Ht] Hlt]|[[[g Ht] Hst]|(Ht & Hrej & Hst)]].
      + right; left.
        destruct Hstep as [Hns _|p' g' l' w e' Ht' Hs|p' g' l' w m Ht' Hs Heq|p' g' l' w m Ht' Hs Heq
                          |? ? ? ? Ht'|? ? ? ? Ht']; cbn; simplify_eq.
        * by destruct (Hns _ _ _ Ht).
        * apply stat_inv in Hs as [(? & _ & _ & [[? _]|(? & ? & ?)])|(? & ? & [=] & _)];
            simplify_eq.
        * apply stat_inv in Hs as [(? & [=] & _)|(n & ms' & [= ->] & _)].
          destruct (lastTime item) as [d|] eqn:Hd; [|done]. cbn in Heq.
          apply Nat.eqb_eq in Heq. pose proof (Hfresh d eq_refl).
          pose proof (ext_ref _ _ Hext). lia.
        * apply stat_inv in Hs as [(? & [=] & _)|(n & ms' & [= ->] & _ & Hn' & Hms)].
          simplify_eq. cbn in Hms. simplify_eq. split.
          { eexists. apply list_lookup_insert_eq. by eapply lookup_lt_Some. }
          eexists. unfold lastTime_at in *. cbn. rewrite list_lookup_alter_eq.
          destruct (this_files (store (run_state r)) !! i); [|done]. cbn.
          split; [done|]. split; [done|]. cbn. apply (ext_ref _ _ Hext).
      + right; right.
        destruct Hstep as [_ Hnr|? ? ? ? ? Ht'|? ? ? ? ? Ht'|? ? ? ? ? Ht'
                          |p' g' w e' Ht' Hr|p' g' w b Ht' Hr]; cbn; simplify_eq.
        * by destruct (Hnr _ _ Ht).
        * apply readFile_inv in Hr as [_ [[? _]|(n & ? & ?)]]; simplify_eq.
          cbn in *. simplify_eq. split.
          { apply list_lookup_insert_eq. by eapply lookup_lt_Some. }
          split; [apply settle_Rejected|done].
        * apply readFile_inv in Hr as [_ [[? _]|(n & ? & ?)]]; simplify_eq.
      + right; right. split; [by eapply step_done_stays|].
        split; [by eapply step_rejected_mono|].
        destruct Hstep; try done; simplify_eq. }
  destruct (reload_run_done sched st i) as (t & Ht' & Hd).
  { by eapply lookup_lt_Some. }
  unfold reload. cbn.
  destruct Hq as [[[g Ht] _]|[[[g Ht] _]|(_ & ? & ?)]]; [by simplify_eq..|done].
Qed.

(** C10. In [_reloadFile] the callback of [fs.stat] stores the new
    [mtime] in [lastTime] before the read is even issued; when the read
    then fails, the promise is rejected and [lastTime] keeps the new
    value.  So a reload over a file that can be statted but not read
    reports an error, and the file's [lastTime] is afterwards a new [Date]
    with the observed time, whatever the order of the callbacks. *)
Theorem lastTime_set_before_read (st : State) (i : nat) (item : FileConf)
    (p : string) (ms : Z) (e : JsError) :
  this_files (store st) !! i = Some item →
  path item = Some p → truthy_string p = true →
  Fs.w_nodes (world st) !! p = Some (Fs.mkNode (inr ms) (inl e)) →
  (∀ d, lastTime item = Some d → date_ref d < Fs.w_next_ref (world st)) →
  let stat := on_stat i p (groupName item) (lastTime item) st in
  let read := on_read p (groupName item) stat.1 in
  (stat.2 = AwaitRead p (groupName item) ∧
   lastTime_at i stat.1 = Some (Some (mkDate (Fs.w_next_ref (world st)) ms)) ∧
   Fs.w_trace (world stat.1) = Fs.w_trace (world st) ++ [Fs.EvStat p] ∧
   read.2 = Rejected e ∧
   lastTime_at i read.1 = lastTime_at i stat.1 ∧
   this_users (store read.1) = this_users (store st)) ∧
  ∀ sched,
    is_Some (reload sched st).2 ∧
    ∃ d, lastTime_at i (reload sched st).1 = Some (Some d) ∧ date_ms d = ms ∧
         Fs.w_next_ref (world st) ≤ date_ref d.
Proof.
  intros Hi Hp Htr Hnode Hfresh. cbv zeta. split; [|intros; by eapply reload_unreadable_file].
  unfold on_stat, Fs.stat. cbn. rewrite Hnode. cbn.
  assert (strict_eq_Date (lastTime item) (mkDate (Fs.w_next_ref (world st)) ms) = false) as ->.
  { destruct (lastTime item) as [d|] eqn:Hd; [|done]. cbn. apply Nat.eqb_neq.
    pose proof (Hfresh d eq_refl). lia. }
  cbn. unfold on_read, Fs.readFile, lastTime_at. cbn. rewrite Hnode. cbn.
  by rewrite list_lookup_alter_eq, Hi.
Qed.

End Trajectory.

Section Authenticate.
Context `{Imports}.

(** C3, as amended.  [authenticate] runs [reload] first.  If [reload]
    reports an error whose code is ENOENT, whichever file it comes from,
    the callback gets no error and no result ([cb(null)]); any other error
    is handed to the callback.  So when a configured file is missing,
    default or not, and no file fails otherwise, the call ends without
    error and without result.  When [reload] succeeds, an unknown user
    and a wrong password give [false], and a right password gives the
    groups of the user. *)
Theorem authenticate_outcome (sched : list nat) (user password : string) (st : State) :
  let r := reload sched st in
  let out := (authenticate sched user password st).2 in
  (∀ e, r.2 = Some e → is_ENOENT e = true → out = (None, ResUndefined)) ∧
  (∀ e, r.2 = Some e → is_ENOENT e = false → out = (Some e, ResUndefined)) ∧
  (∀ i item p,
     this_files (store st) !! i = Some item →
     path item = Some p → truthy_string p = true →
     Fs.w_nodes (world st) !! p = None → sound_nodes st →
     out = (None, ResUndefined)) ∧
  (r.2 = None → this_users (store r.1) !! user = None → out = (None, ResFalse)) ∧
  (∀ u, r.2 = None → this_users (store r.1) !! user = Some u →
        verifyPassword password (passwd u) = false → out = (None, ResFalse)) ∧
  (∀ u, r.2 = None → this_users (store r.1) !! user = Some u →
        verifyPassword password (passwd u) = true → out = (None, ResGroups (groups u))).
Proof.
  cbv zeta.
  assert (∀ e, (reload sched st).2 = Some e → is_ENOENT e = true →
               (authenticate sched user password st).2 = (None, ResUndefined)) as Hen.
  { intros e He Hc. unfold authenticate. destruct (reload sched st) as [st' err].
    cbn in He. subst err. by rewrite Hc. }
  repeat apply conj.
  - exact Hen.
  - intros e He Hc. unfold authenticate. destruct (reload sched st) as [st' err].
    cbn in He. subst err. by rewrite Hc.
  - intros i item p Hi Hp Htr Hnone Hsound.
    destruct (reload_missing_file_fails sched st i item p Hi Hp Htr Hnone) as [e He].
    apply (Hen e He).
    destruct (reload_error_of_file sched st e He) as (item' & p' & _ & _ & [[_ ?]|(n & Hn & Hbad)]);
      [done|].
    destruct (Hsound p' n Hn) as [Hs Hd]. destruct Hbad as [?|?]; [by destruct (Hs e)|by destruct (Hd e)].
  - intros He Hu. unfold authenticate. destruct (reload sched st) as [st' err].
    cbn in He, Hu. subst err. by rewrite Hu.
  - intros u He Hu Hv. unfold authenticate. destruct (reload sched st) as [st' err].
    cbn in He, Hu. subst err. by rewrite Hu, Hv.
  - intros u He Hu Hv. unfold authenticate. destruct (reload sched st) as [st' err].
    cbn in He, Hu. subst err. by rewrite Hu, Hv.
Qed.

(** Under [dates_allocated] the test [lastTime === stats.mtime] never
    holds: the [Date] of a new [stat] is a new object. *)
Lemma on_stat_never_skips (st : State) (i : nat) (item : FileConf) (p g : string) :
  dates_allocated st → item ∈ this_files (store st) →
  (on_stat i p g (lastTime item) st).2 ≠ Resolved.
Proof.
  intros Hwf Hitem. unfold on_stat.
  destruct (Fs.stat p (world st)) as [w [e|mtime]] eqn:Hs; [done|].
  pose proof (stat_fresh st (mkRun st [] None []) item p w mtime Hwf) as Hf.
  cbn in Hf. by rewrite Hf.
Qed.

(** The test itself: handed the very [Date] object it stored, the callback
    of [fs.stat] resolves at once, and nothing else changes. *)
Lemma on_stat_same_object_skips (st : State) (i : nat) (p g : string) (d : Date)
    (n : Fs.Node) (ms : Z) :
  Fs.w_nodes (world st) !! p = Some n → Fs.node_stat n = inr ms →
  date_ref d = Fs.w_next_ref (world st) →
  on_stat i p g (Some d) st
  = (set_world (Fs.alloc (Fs.log (Fs.EvStat p) (world st))) st, Resolved).
Proof.
  intros Hn Hs Hd. unfold on_stat, Fs.stat. cbn. rewrite Hn, Hs. cbn.
  by rewrite Hd, Nat.eqb_refl.
Qed.

End Authenticate.

(** * [dates_allocated] holds all along *)

Lemma dates_allocated_mono (st st' : State) :
  dates_allocated st →
  this_files (store st') = this_files (store st) →
  Fs.w_next_ref (world st) ≤ Fs.w_next_ref (world st') →
  dates_allocated st'.
Proof.
  intros Hwf Hf Hn item d Hin Hd. rewrite Hf in Hin.
  pose proof (Hwf item d Hin Hd). lia.
Qed.

Section Dates.
Context `{Imports}.

Lemma step_dates (i : nat) (r r' : Run) :
  dates_allocated (run_state r) → step i r r' → dates_allocated (run_state r').
Proof.
  intros Hwf Hstep. pose proof (ext_ref _ _ (step_extends _ _ _ Hstep)) as Href.
  destruct Hstep as [| p g last w e Ht Hs | p g last w m Ht Hs Heq | p g last w m Ht Hs Heq
                       | p g w e Ht Hr | p g w buffer Ht Hr];
    try (by eapply dates_allocated_mono).
  apply stat_inv in Hs as [(? & [=] & _)|(n & ms & [= ->] & -> & _)].
  intros item d [j Hj]%list_elem_of_lookup Hd. cbn in Hj |- *.
  destruct (decide (i = j)) as [<-|Hne].
  - rewrite list_lookup_alter_eq in Hj.
    destruct (this_files (store (run_state r)) !! i) as [x|]; [|done].
    cbn in Hj. simplify_eq. cbn in Hd. simplify_eq. cbn. lia.
  - rewrite list_lookup_alter_ne in Hj by done.
    pose proof (Hwf item d (list_elem_of_lookup_2 _ _ _ Hj) Hd). lia.
Qed.

Lemma reload_dates (sched : list nat) (st : State) :
  dates_allocated st → dates_allocated (reload sched st).1.
Proof.
  intros Hwf. apply (reload_run_ind (λ r, dates_allocated (run_state r))); [done|].
  intros i r Hr. eapply step_dates; [done|apply advance_step].
Qed.

Lemma cb_dates (locked : bool) (p : string) (err : option JsError) (st : State) :
  dates_allocated st → dates_allocated (cb locked p err st).1.
Proof.
  intros Hwf. eapply dates_allocated_mono; [done|by rewrite cb_store|].
  unfold cb, Fs.unlockFile. destruct locked; cbn; [|done].
  by destruct (Fs.w_unlock_err (world st)).
Qed.

Lemma _writeFile_dates (sched : list nat) (body : string) (locked : bool)
    (p : string) (st : State) :
  dates_allocated st → dates_allocated (_writeFile sched body (cb locked p) st).1.
Proof.
  intros Hwf. unfold _writeFile, Fs.writeFile. cbn -[reload cb].
  destruct (Fs.w_write_err (world st)).
  - apply cb_dates. by eapply dates_allocated_mono.
  - destruct (reload sched _) as [st' err] eqn:Hr. apply cb_dates.
    change st' with (st', err).1. rewrite <-Hr. apply reload_dates.
    by eapply dates_allocated_mono.
Qed.

Lemma lockAndRead_ref (p : string) (w : Fs.World) :
  Fs.w_next_ref (Fs.lockAndRead p w).1 = Fs.w_next_ref w.
Proof.
  unfold Fs.lockAndRead. cbn. destruct (Fs.w_lock_err w); [done|].
  destruct (Fs.w_nodes w !! p) as [n|]; [|done]. by destruct (Fs.node_data n).
Qed.

(** Once every [lastTime] is a [Date] of an earlier [stat], it stays so
    under every operation; it is so for a new store whose configuration
    gives no [lastTime]. *)
Lemma dates_allocated_preserved (sched : list nat) (user password newPassword : string)
    (st : State) :
  dates_allocated st →
  dates_allocated (reload sched st).1 ∧
  dates_allocated (authenticate sched user password st).1 ∧
  dates_allocated (adduser sched user password st).1 ∧
  dates_allocated (changePassword sched user password newPassword st).1.
Proof.
  intros Hwf. repeat apply conj.
  - by apply reload_dates.
  - unfold authenticate. pose proof (reload_dates sched st Hwf) as Hr.
    destruct (reload sched st) as [st' [e|]]; [done|].
    destruct (_ !! user); [|done]. by destruct (verifyPassword _ _).
  - unfold adduser. destruct (sanityCheck _ _ _ _ _); [done|].
    pose proof (lockAndRead_ref (this_path (store st)) (world st)) as Hl.
    destruct (Fs.lockAndRead _ _) as [w [err res]]. cbn [fst] in Hl.
    assert (∀ us, dates_allocated (set_users us (set_world w st))) as Hus.
    { intros us. eapply dates_allocated_mono; [done..|]. cbn. lia. }
    assert (dates_allocated (set_world w st)) as Hw.
    { eapply dates_allocated_mono; [done..|]. cbn. lia. }
    destruct (fatal err); [by apply cb_dates|].
    destruct (sanityCheck _ _ _ _ _); [by apply cb_dates, Hus|].
    destruct (addUserToHTPasswd _ _ _); [by apply cb_dates, Hus|].
    by apply _writeFile_dates, Hus.
  - unfold changePassword.
    pose proof (lockAndRead_ref (this_path (store st)) (world st)) as Hl.
    destruct (Fs.lockAndRead _ _) as [w [err res]]. cbn [fst] in Hl.
    assert (∀ us, dates_allocated (set_users us (set_world w st))) as Hus.
    { intros us. eapply dates_allocated_mono; [done..|]. cbn. lia. }
    assert (dates_allocated (set_world w st)) as Hw.
    { eapply dates_allocated_mono; [done..|]. cbn. lia. }
    destruct (fatal err); [by apply cb_dates|].
    destruct (_ !! user); [|by apply cb_dates, Hus].
    destruct (changePasswordToHTPasswd _ _ _ _); [by apply cb_dates, Hus|].
    by apply _writeFile_dates, Hus.
Qed.

Lemma constructor_dates (cfiles : list FileConf) (m : option JsNumber)
    (self_path : string) (s : HTPasswd) (w : Fs.World) :
  constructor (mkAuthConf (Some cfiles) m) self_path = inr s →
  Forall (λ item, lastTime item = None) cfiles →
  dates_allocated (mkState s w).
Proof.
  unfold constructor. cbn. case_bool_decide; [done|].
  destruct (List.find _ _) as [d|]; [|done].
  destruct (path d) as [p|]; [|done]. destruct (truthy_string p); [|done].
  intros [= <-] Hall item d' Hin Hd. cbn in Hin.
  apply list_elem_of_fmap in Hin as (x & -> & Hx).
  rewrite Forall_forall in Hall. cbn in Hd. by rewrite (Hall x Hx) in Hd.
Qed.

End Dates.

(** * The store of the README at work *)

Section Scenarios.
Import Concrete Scenario.

Lemma resolve_truthy (dir f : string) : truthy_string (resolve dir f) = true.
Proof.
  assert (∀ s, truthy_string (dir +:+ "/" +:+ s) = true) as Happ.
  { intros s. by destruct dir. }
  unfold resolve. destruct f as [|c f]; [apply Happ|].
  destruct c as [[] [] [] [] [] [] [] []]; try apply Happ; try done.
  destruct f as [|c f]; [apply Happ|].
  destruct c as [[] [] [] [] [] [] [] []]; apply Happ.
Qed.

Lemma store0_constructed : constructor readme_conf self_path = inr store0.
Proof. reflexivity. Qed.

Lemma fresh_dates_allocated : dates_allocated fresh.
Proof.
  intros item d Hin. cbn in Hin.
  apply elem_of_cons in Hin as [->|Hin]; [done|].
  apply elem_of_cons in Hin as [->|Hin]; [done|]. by apply elem_of_nil in Hin.
Qed.


(** A user is added to the default file and can log in at once, with the
    group of that file; the file is unlocked again. *)
Example add_then_authenticate :
  let added := adduser [] "carol" "pw" loaded in
  added.2 = (None, true) ∧
  Fs.w_locked (world added.1) = ∅ ∧
  (authenticate [] "carol" "pw" added.1).2 = (None, ResGroups {["developer"]}) ∧
  (authenticate [] "carol" "wrong" added.1).2 = (None, ResFalse) ∧
  (adduser [] "carol" "pw" added.1).2 = (Some err_user_exists, false).
Proof. vm_compute. by repeat split. Qed.

(** The race the second check of [adduser] is for: the cached index does
    not know [alice] yet, the default file does; the first check passes,
    the second one fails, and nothing is written. *)
Example adduser_rechecks_after_read :
  let out := adduser [] "alice" "pw" fresh in
  sanity "alice" "pw" verify (this_users (store fresh)) (this_maxUsers (store fresh)) = None ∧
  out.2 = (Some err_user_exists, false) ∧
  Fs.w_trace (world out.1) = [Fs.EvLockAndRead dev_path; Fs.EvUnlock dev_path].
Proof. vm_compute. by repeat split. Qed.

(** An error of [reload] other than ENOENT reaches the caller. *)
Example authenticate_surfaces_EACCES :
  (authenticate [] "alice" "secret" (mkState store0 disk_unreadable)).2
  = (Some EACCES, ResUndefined).
Proof. by vm_compute. Qed.

(** C1, at the failing input.  The two files of the README are loaded,
    nothing on disk changes, and [reload] runs again: the modification
    times it observes are the ones it stored, yet both files are read
    again.  [lastTime === stats.mtime] compares two [Date] objects, and
    the one of the second [stat] is not the one of the first. *)
Theorem reload_rereads_unchanged_files :
  let again := (reload [] loaded).1 in
  Fs.w_nodes (world again) = Fs.w_nodes (world fresh) ∧
  map (λ item, date_ms <$> lastTime item) (this_files (store again))
  = map (λ item, date_ms <$> lastTime item) (this_files (store loaded)) ∧
  Fs.w_trace (world again)
  = Fs.w_trace (world loaded)
    ++ [Fs.EvStat admin_path; Fs.EvReadFile admin_path;
        Fs.EvStat dev_path; Fs.EvReadFile dev_path].
Proof. vm_compute. by repeat split. Qed.


(** The order of the callbacks decides whose hash stays: with the default
    file read before the admin file, [alice] keeps the admin hash. *)
Example reload_out_of_order :
  this_users (store (reload [] fresh).1) !! "alice"
    = Some (mkUser "h2" {["admin"; "developer"]}) ∧
  this_users (store (reload [1; 1] fresh).1) !! "alice"
    = Some (mkUser "h1" {["admin"; "developer"]}).
Proof. vm_compute. by repeat split. Qed.

(** Against C3: the admin file, which is not the default file, is
    missing; [reload] fails with its ENOENT, and [authenticate] reports
    neither an error nor [false]. *)
Lemma authenticate_hides_missing_admin_file :
  let st := mkState store0 disk_no_admin in
  is_Some (Fs.w_nodes (world st) !! this_path (store st)) ∧
  (reload [] st).2 = Some (enoent "stat" admin_path) ∧
  (authenticate [] "alice" "secret" st).2 = (None, ResUndefined).
Proof. vm_compute. by repeat split; [eexists|..]. Qed.

(** Against C4: [bob] is in the index through the admin file, and still
    is once the default file is merged into it; the helper would accept
    him and return the new content; and [changePassword] answers "User
    not found" and leaves the files as they are.  The helper rejecting
    nobody, the answer is that of the check [changePassword] makes
    itself, on the entries of the default file. *)
Lemma changePassword_rejects_indexed_user :
  let read := Fs.lockAndRead (this_path (store loaded)) (world loaded) in
  let merged := @merged_state imports_unchecked loaded read.1 read.2.2 in
  let out := @changePassword imports_unchecked [] "bob" "old" "new" loaded in
  fatal read.2.1 = None ∧
  is_Some (this_users (store loaded) !! "bob") ∧
  is_Some (this_users (store merged) !! "bob") ∧
  is_Some (this_users (store out.1) !! "bob") ∧
  @changePasswordToHTPasswd imports_unchecked (_stringToUt8 read.2.2) "bob" "old" "new"
  = inr ("alice:h2" +:+ nl) ∧
  out.2 = (Some err_user_not_found, false) ∧
  Fs.w_nodes (world out.1) = Fs.w_nodes (world loaded).
Proof. vm_compute. by repeat split; eexists. Qed.


(** Against C7: two entries are marked default and the store is built,
    with the first of them as default file. *)
Lemma constructor_accepts_two_defaults :
  length (List.filter isDefault (default [] (conf_files two_defaults))) = 2 ∧
  ∃ s, constructor two_defaults self_path = inr s ∧ this_path s = admin_path.
Proof. split; [done|]. eexists. by split. Qed.

(** Against C8: [ghost] is not in the cached index, and [changePassword]
    goes to the file system all the same. *)
Lemma changePassword_locks_before_validating :
  let out := changePassword [] "ghost" "x" "y" fresh in
  this_users (store fresh) !! "ghost" = None ∧
  out.2 = (Some err_user_not_found, false) ∧
  Fs.w_trace (world out.1) = [Fs.EvLockAndRead dev_path; Fs.EvUnlock dev_path].
Proof. vm_compute. by repeat split. Qed.

End Scenarios.

Section Witnesses.
Import Concrete Scenario.

(** C9 on the README configuration with [max_users: 0]. *)
Lemma constructor_maxUsers_witness :
  constructor (mkAuthConf (Some readme_files) (Some (Num 0%Z))) self_path = inr store0 ∧
  this_maxUsers store0 = Infinity.
Proof.
  split; [reflexivity|].
  exact (proj1 (proj2 (constructor_maxUsers
           (mkAuthConf (Some readme_files) (Some (Num 0%Z))) self_path store0 eq_refl))
           eq_refl).
Defined.

(** C7 on the README configuration. *)
Lemma constructor_succeeds_iff_witness :
  (∀ dir f, truthy_string (Path_resolve dir f) = true) ∧
  constructor readme_conf self_path = inr store0.
Proof.
  split; [exact resolve_truthy|].
  apply (proj1 (@constructor_succeeds_iff imports readme_conf self_path resolve_truthy) store0).
  exists readme_files, (mkFileConf true "./dev-htpasswd" "developer" None None).
  repeat split; done.
Defined.

(** C10 on a default file that cannot be read, its callbacks firing
    before those of the admin file. *)
Lemma lastTime_set_before_read_witness :
  let st := mkState store0 disk_unreadable in
  Fs.w_nodes (world st) !! dev_path = Some (Fs.mkNode (inr 6%Z) (inl EACCES)) ∧
  is_Some (reload [1; 0] st).2 ∧
  ∃ d, lastTime_at 1 (reload [1; 0] st).1 = Some (Some d) ∧ date_ms d = 6%Z ∧
       Fs.w_next_ref (world st) ≤ date_ref d.
Proof.
  cbv zeta. split; [by vm_compute|].
  refine (proj2 (lastTime_set_before_read (mkState store0 disk_unreadable) 1 dev_conf
                   dev_path 6%Z EACCES _ _ _ _ _) [1; 0]).
  - reflexivity.
  - reflexivity.
  - reflexivity.
  - by vm_compute.
  - intros d Hd. discriminate Hd.
Defined.


(** C4 on [bob], who is in the admin file only. *)
Lemma changePassword_checks_default_file_witness :
  let l := Fs.lockAndRead (this_path (store loaded)) (world loaded) in
  fatal (fst (snd l)) = None ∧
  ¬ ("bob" ∈ fst <$> Codec.entries (_stringToUt8 (snd (snd l)))) ∧
  (changePassword [] "bob" "old" "new" loaded).2 = (Some err_user_not_found, false).
Proof.
  cbv zeta.
  assert ("bob" ∉ (Codec.entries (_stringToUt8
            (Fs.lockAndRead (this_path (store loaded)) (world loaded)).2.2)).*1) as Hnot.
  { vm_compute. by intros [= ]%list_elem_of_singleton. }
  split; [by vm_compute|]. split; [exact Hnot|].
  refine (proj1 (proj1 (@changePassword_checks_default_file imports [] "bob" "old" "new" loaded
            (Fs.lockAndRead (this_path (store loaded)) (world loaded)).1
            (Fs.lockAndRead (this_path (store loaded)) (world loaded)).2.1
            (Fs.lockAndRead (this_path (store loaded)) (world loaded)).2.2
            (λ _ _ _, eq_refl) _ _) Hnot)).
  - by destruct (Fs.lockAndRead _ _) as [? [? ?]].
  - by vm_compute.
Defined.

End Witnesses.


(** * Further properties of the code *)

Lemma sum_list_with_insert {A} (f : A → nat) (l : list A) (i : nat) (x y : A) :
  l !! i = Some x →
  sum_list_with f (<[i := y]> l) + f x = sum_list_with f l + f y.
Proof.
  revert i. induction l as [|a l IH]; intros [|i] Hi; simplify_eq/=; [lia|].
  specialize (IH i Hi). lia.
Qed.

Lemma sum_list_with_zero {A} (f : A → nat) (l : list A) :
  (∀ x, x ∈ l → f x = 0) → sum_list_with f l = 0.
Proof.
  induction l as [|a l IH]; intros Hl; [done|]. cbn.
  rewrite (Hl a), IH; [done| |]; [intros x Hx; apply Hl|]; set_solver.
Qed.

Section Calls.
Context `{Imports}.

(** A rejected promise has settled [Promise.all]. *)
Lemma rejected_task_settles (sched : list nat) (st : State) (i : nat) (e : JsError) :
  run_tasks (reload_run sched st) !! i = Some (Rejected e) →
  is_Some (run_rejected (reload_run sched st)).
Proof.
  revert i e.
  apply (reload_run_ind (λ r, ∀ i e, run_tasks r !! i = Some (Rejected e) →
                                is_Some (run_rejected r))).
  - intros i e. cbn. rewrite list_lookup_fmap.
    destruct (this_files (store st) !! i) as [item|]; [|done]. cbn.
    unfold _reloadFile. destruct (path item) as [p|]; [|done].
    by destruct (truthy_string p).
  - intros j r Hr i e. pose proof (advance_step j r) as Hstep.
    destruct (decide (j = i)) as [->|Hne]; cycle 1.
    { rewrite (step_other j i _ _ Hstep Hne). intros Hi.
      eapply step_rejected_mono; [done|]. by eapply Hr. }
    destruct Hstep as [| ? ? ? ? ? Ht | ? ? ? ? ? Ht | ? ? ? ? ? Ht | ? ? ? ? Ht | ? ? ? ? Ht];
      cbn; [apply Hr|..];
      rewrite list_lookup_insert_eq by (by eapply lookup_lt_Some);
      intros ?; simplify_eq; apply settle_Rejected.
Qed.

(** The way of one file through a reload: a property of its promise and
    of its [lastTime] that holds at the start and that its own callbacks
    keep holds when the reload is over. *)
Lemma reload_run_at (φ : option Task → option (option Date) → Prop)
    (i : nat) (sched : list nat) (st : State) :
  φ (_reloadFile <$> this_files (store st) !! i) (lastTime_at i st) →
  (∀ r r', extends st (run_state r) →
           φ (run_tasks r !! i) (lastTime_at i (run_state r)) →
           step i r r' →
           φ (run_tasks r' !! i) (lastTime_at i (run_state r'))) →
  φ (run_tasks (reload_run sched st) !! i)
    (lastTime_at i (reload_run sched st).(run_state)).
Proof.
  intros H0 Hown.
  apply (reload_run_ind (λ r, extends st (run_state r) ∧
                              φ (run_tasks r !! i) (lastTime_at i (run_state r)))).
  - split; [done|]. cbn. by rewrite list_lookup_fmap.
  - intros j r [Hext Hφ]. pose proof (advance_step j r) as Hstep.
    split; [etrans; [done|by eapply step_extends]|].
    destruct (decide (j = i)) as [->|Hne]; [by eapply Hown|].
    by destruct (step_frame i j _ _ Hstep Hne) as [-> ->].
Qed.

Lemma stat_count (f : Fs.Event → bool) (p : string) (st : State) (w : Fs.World)
    (r : JsError + Date) :
  Fs.stat p (world st) = (w, r) →
  count_ev f (set_world w st) = count_ev f st + tick (f (Fs.EvStat p)).
Proof.
  intros Hs. assert (Fs.w_trace w = Fs.w_trace (world st) ++ [Fs.EvStat p]) as Htr.
  { apply stat_inv in Hs as [(? & _ & -> & _)|(? & ? & _ & -> & _)]; done. }
  unfold count_ev. cbn. rewrite Htr, List.filter_app, length_app. cbn.
  by destruct (f _).
Qed.

Lemma readFile_count (f : Fs.Event → bool) (p : string) (st : State) (w : Fs.World)
    (r : JsError + string) :
  Fs.readFile p (world st) = (w, r) →
  count_ev f (set_world w st) = count_ev f st + tick (f (Fs.EvReadFile p)).
Proof.
  intros [-> _]%readFile_inv. by rewrite count_ev_log; destruct st.
Qed.

Lemma tasks_all_done (sched : list nat) (st : State) (f : Task → nat) :
  (∀ t, is_done t = true → f t = 0) →
  sum_list_with f (run_tasks (reload_run sched st)) = 0.
Proof.
  intros Hf. apply sum_list_with_zero. intros t [j Hj]%list_elem_of_lookup.
  destruct (reload_run_done sched st j) as (t' & Ht' & Hd).
  - apply lookup_lt_Some in Hj.
    assert (length (run_tasks (reload_run sched st)) = length (this_files (store st))) as <-;
      [|done].
    unfold reload_run. by rewrite !advance_all_length; cbn; rewrite length_map.
  - rewrite Hj in Ht'. simplify_eq. by apply Hf.
Qed.

Lemma stats_due_init (sel : string → bool) (files : list FileConf) :
  sum_list_with (stats_due_on sel) (map _reloadFile files)
  = length (List.filter (has_path_on sel) files).
Proof.
  induction files as [|item files IH]; [done|]. cbn. rewrite IH.
  unfold _reloadFile, has_path_on. destruct (path item) as [p|]; [|done].
  destruct (truthy_string p); [|done]. cbn. by destruct (sel p).
Qed.

(** X1. A reload calls [fs.stat] on the path of every configured file
    that has a path, once for each such file, and on nothing else:
    whatever paths [sel] selects, the number of [stat] calls the reload
    makes on selected paths is the number of configured files whose path
    is selected.  So a path configured once is statted exactly once, a
    path that is not configured is never statted, and this for every
    outcome and every order of the callbacks. *)
Theorem reload_stats_each_file_once (sched : list nat) (st : State)
    (sel : string → bool) :
  count_ev (is_stat_on sel) (reload sched st).1
  = count_ev (is_stat_on sel) st
    + length (List.filter (has_path_on sel) (this_files (store st))).
Proof.
  unfold reload. cbn [fst].
  pose proof (tasks_all_done sched st (stats_due_on sel)) as Hend.
  assert (count_ev (is_stat_on sel) (run_state (reload_run sched st))
          + sum_list_with (stats_due_on sel) (run_tasks (reload_run sched st))
          = count_ev (is_stat_on sel) st
            + length (List.filter (has_path_on sel) (this_files (store st)))) as Hinv.
  { apply (reload_run_ind (λ r, count_ev (is_stat_on sel) (run_state r)
                                + sum_list_with (stats_due_on sel) (run_tasks r) = _)).
    - cbn. by rewrite stats_due_init.
    - intros i r Hr. rewrite <-Hr. clear Hr.
      destruct (advance_step i r) as [| p g last w e Ht Hs | p g last w m Ht Hs Heq
                                      | p g last w m Ht Hs Heq | p g w e Ht Hr | p g w b Ht Hr];
        [done|..]; cbn [run_state run_tasks];
        match goal with
        | |- context [<[i := ?t]> (run_tasks r)] =>
            pose proof (sum_list_with_insert (stats_due_on sel) (run_tasks r) i _ t Ht)
              as Hins;
            cbn in Hins
        end.
      + rewrite (stat_count _ _ _ _ _ Hs). cbn. lia.
      + rewrite (stat_count _ _ _ _ _ Hs). cbn. lia.
      + change (count_ev (is_stat_on sel) (touch i m (set_world w (run_state r))))
          with (count_ev (is_stat_on sel) (set_world w (run_state r))).
        rewrite (stat_count _ _ _ _ _ Hs). cbn. lia.
      + rewrite (readFile_count _ _ _ _ _ Hr). cbn. lia.
      + rewrite set_users_count, (readFile_count _ _ _ _ _ Hr). cbn. lia. }
  rewrite Hend in Hinv by (by intros []). lia.
Qed.

Lemma stat_ok_inv (st : State) (p : string) (w0 w : Fs.World) (r : JsError + Date) :
  Fs.w_nodes w0 = Fs.w_nodes (world st) →
  Fs.stat p w0 = (w, r) →
  stat_ok st p = match r with inr _ => true | inl _ => false end.
Proof.
  intros Hn Hs. unfold stat_ok. rewrite <-Hn.
  apply stat_inv in Hs as [(e & -> & _ & [[-> _]|(n & -> & ->)])|(n & ms & -> & _ & -> & ->)];
    done.
Qed.

Lemma reads_due_init (sel : string → bool) (st : State) (files : list FileConf) :
  sum_list_with (reads_due_on sel st) (map _reloadFile files)
  = length (List.filter (statted_on sel st) files).
Proof.
  induction files as [|item files IH]; [done|]. cbn. rewrite IH.
  unfold _reloadFile, statted_on. destruct (path item) as [p|]; [|done].
  destruct (truthy_string p); [|done]. cbn. by destruct (stat_ok st p && sel p).
Qed.

(** X2. Once every [lastTime] is a [Date] of an earlier [stat] (as it
    always is, see [dates_allocated_preserved]), a reload calls
    [fs.readFile] on the path of every configured file it could stat,
    once for each such file, and on nothing else: whatever paths [sel]
    selects, the number of [readFile] calls the reload makes on selected
    paths is the number of configured files that have a selected path and
    can be statted.  So no file is ever skipped as unchanged, a file that
    cannot be statted or is not configured is never read, and the
    rejection of one file does not stop the reads of the others. *)
Theorem reload_reads_every_statted_file (sched : list nat) (st : State)
    (sel : string → bool) :
  dates_allocated st →
  count_ev (is_readFile_on sel) (reload sched st).1
  = count_ev (is_readFile_on sel) st
    + length (List.filter (statted_on sel st) (this_files (store st))).
Proof.
  intros Hwf. unfold reload. cbn [fst].
  pose proof (tasks_all_done sched st (reads_due_on sel st)) as Hend.
  assert (inv st (reload_run sched st) ∧
          count_ev (is_readFile_on sel) (run_state (reload_run sched st))
          + sum_list_with (reads_due_on sel st) (run_tasks (reload_run sched st))
          = count_ev (is_readFile_on sel) st
            + length (List.filter (statted_on sel st) (this_files (store st)))) as [_ Hinv].
  { apply (reload_run_ind (λ r, inv st r ∧
             count_ev (is_readFile_on sel) (run_state r)
             + sum_list_with (reads_due_on sel st) (run_tasks r) = _)).
    - split; [apply inv_init|]. cbn. by rewrite reads_due_init.
    - intros i r [Hi Hr]. pose proof (advance_step i r) as Hstep.
      split; [by eapply inv_step|]. rewrite <-Hr. clear Hr.
      pose proof (ext_nodes _ _ (inv_ext _ _ Hi)) as Hn.
      destruct Hstep as [| p g last w e Ht Hs | p g last w m Ht Hs Heq
                         | p g last w m Ht Hs Heq | p g w e Ht Hr | p g w b Ht Hr];
        [done|..]; cbn [run_state run_tasks];
        match goal with
        | |- context [<[i := ?t]> (run_tasks r)] =>
            pose proof (sum_list_with_insert (reads_due_on sel st) (run_tasks r) i _ t Ht)
              as Hins;
            cbn in Hins
        end.
      + rewrite (stat_ok_inv st p _ _ _ Hn Hs) in Hins.
        rewrite (stat_count _ _ _ _ _ Hs). cbn in *. lia.
      + destruct (inv_task _ _ Hi _ _ Ht) as (item & Hitem & _ & _ & -> & _).
        rewrite (stat_fresh st r item p w m) in Heq; try done.
        * apply (inv_ext _ _ Hi).
        * by eapply list_elem_of_lookup_2.
      + rewrite (stat_ok_inv st p _ _ _ Hn Hs) in Hins.
        change (count_ev (is_readFile_on sel) (touch i m (set_world w (run_state r))))
          with (count_ev (is_readFile_on sel) (set_world w (run_state r))).
        rewrite (stat_count _ _ _ _ _ Hs). cbn in *. lia.
      + rewrite (readFile_count _ _ _ _ _ Hr). cbn. lia.
      + rewrite set_users_count, (readFile_count _ _ _ _ _ Hr). cbn. lia. }
  rewrite Hend in Hinv by (by intros []). lia.
Qed.

Lemma authenticate_state (sched : list nat) (user password : string) (st : State) :
  (authenticate sched user password st).1 = (reload sched st).1.
Proof.
  unfold authenticate. destruct (reload sched st) as [st' [e|]]; [done|].
  destruct (_ !! user); [|done]. by destruct (verifyPassword _ _).
Qed.

Lemma reload_trace_on_configured (sched : list nat) (st : State) :
  ∃ evs, Fs.w_trace (world (reload sched st).1) = Fs.w_trace (world st) ++ evs ∧
         Forall (on_configured st) evs.
Proof.
  unfold reload. cbn [fst].
  assert (tracks st (reload_run sched st) ∧
          ∃ evs, Fs.w_trace (world (run_state (reload_run sched st)))
                 = Fs.w_trace (world st) ++ evs ∧ Forall (on_configured st) evs) as [_ ?];
    [|done].
  apply (reload_run_ind (λ r, tracks st r ∧
           ∃ evs, Fs.w_trace (world (run_state r)) = Fs.w_trace (world st) ++ evs ∧
                  Forall (on_configured st) evs)).
  - split; [apply tracks_init|]. exists []. by rewrite app_nil_r.
  - intros i r [Htr (evs & Hevs & Hall)]. pose proof (advance_step i r) as Hstep.
    split; [by eapply tracks_step|].
    assert (∀ e w, on_configured st e →
              Fs.w_trace w = Fs.w_trace (world (run_state r)) ++ [e] →
              ∃ evs', Fs.w_trace w = Fs.w_trace (world st) ++ evs' ∧
                      Forall (on_configured st) evs') as Hone.
    { intros e w He Hw. exists (evs ++ [e]). rewrite Hw, Hevs, app_assoc.
      split; [done|]. apply Forall_app. split; [done|]. by constructor. }
    assert (∀ p g last, run_tasks r !! i = Some (AwaitStat p g last) →
              on_configured st (Fs.EvStat p)) as Hst.
    { intros p g last (item & Hi & Hp)%(tr_stat _ _ Htr). exists item, p.
      split; [by eapply list_elem_of_lookup_2|]. by split; [|left]. }
    assert (∀ p g, run_tasks r !! i = Some (AwaitRead p g) →
              on_configured st (Fs.EvReadFile p)) as Hrd.
    { intros p g (item & Hi & Hp)%(tr_read _ _ Htr). exists item, p.
      split; [by eapply list_elem_of_lookup_2|]. by split; [|right]. }
    destruct Hstep as [| p g last w e Ht Hs | p g last w m Ht Hs Heq
                       | p g last w m Ht Hs Heq | p g w e Ht Hr | p g w b Ht Hr];
      [by exists evs|..]; cbn.
    + eapply Hone; [by eapply Hst|].
      by apply stat_inv in Hs as [(? & _ & -> & _)|(? & ? & [=] & _)].
    + eapply Hone; [by eapply Hst|].
      by apply stat_inv in Hs as [(? & [=] & _)|(? & ? & _ & -> & _)].
    + eapply Hone; [by eapply Hst|].
      by apply stat_inv in Hs as [(? & [=] & _)|(? & ? & _ & -> & _)].
    + eapply Hone; [by eapply Hrd|]. by apply readFile_inv in Hr as [-> _].
    + eapply Hone; [by eapply Hrd|]. by apply readFile_inv in Hr as [-> _].
Qed.

(** X3. [reload] and [authenticate] only look: all they call is [fs.stat]
    and [fs.readFile], each on the path of a configured file; no file is
    written or changed, and no lock is taken or released. *)
Theorem reload_and_authenticate_only_look (sched : list nat) (user password : string)
    (st : State) :
  let after_reload := (reload sched st).1 in
  let after_auth := (authenticate sched user password st).1 in
  (∃ evs, Fs.w_trace (world after_reload) = Fs.w_trace (world st) ++ evs ∧
          Forall (on_configured st) evs) ∧
  Fs.w_nodes (world after_reload) = Fs.w_nodes (world st) ∧
  Fs.w_locked (world after_reload) = Fs.w_locked (world st) ∧
  after_auth = after_reload.
Proof.
  cbv zeta. pose proof (reload_extends sched st) as Hext.
  split; [apply reload_trace_on_configured|].
  split; [apply (ext_nodes _ _ Hext)|]. split; [apply (ext_locked _ _ Hext)|].
  apply authenticate_state.
Qed.

Lemma read_ok_inv (st : State) (p : string) (w0 w : Fs.World) (r : JsError + string) :
  Fs.w_nodes w0 = Fs.w_nodes (world st) →
  Fs.readFile p w0 = (w, r) →
  read_ok st p = match r with inr _ => true | inl _ => false end.
Proof.
  intros Hn [_ Hr]%readFile_inv. unfold read_ok. rewrite <-Hn.
  destruct Hr as [[-> ->]|(n & -> & ->)]; [done|]. by destruct (Fs.node_data n).
Qed.

(** [Promise.all] is rejected only by a rejected promise. *)
Lemma settled_by_rejected_task (sched : list nat) (st : State) :
  is_Some (run_rejected (reload_run sched st)) →
  ∃ i e, run_tasks (reload_run sched st) !! i = Some (Rejected e).
Proof.
  apply (reload_run_ind (λ r, is_Some (run_rejected r) →
                              ∃ i e, run_tasks r !! i = Some (Rejected e))).
  - by intros [? ?].
  - intros j r Hr. pose proof (advance_step j r) as Hstep.
    assert (is_Some (run_rejected r) →
            ∃ i e, run_tasks (advance j r) !! i = Some (Rejected e)) as Hold.
    { intros (i & e & Hi)%Hr. exists i, e. by eapply step_done_stays. }
    destruct Hstep as [| p g last w e Ht Hs | p g last w m Ht Hs Heq
                       | p g last w m Ht Hs Heq | p g w e Ht Hr' | p g w b Ht Hr'];
      try done; cbn in Hold |- *; intros _; exists j, e;
      apply list_lookup_insert_eq; by eapply lookup_lt_Some.
Qed.

(** A file that cannot be statted: its promise is rejected and its
    [lastTime] stays. *)
Lemma reload_unstattable_file (sched : list nat) (st : State) (i : nat)
    (item : FileConf) (p : string) :
  this_files (store st) !! i = Some item →
  path item = Some p → truthy_string p = true →
  stat_ok st p = false →
  is_Some (reload sched st).2 ∧
  lastTime_at i (reload sched st).1 = Some (lastTime item).
Proof.
  intros Hi Hp Htr Hno.
  set (φ := λ (t : option Task) (lt : option (option Date)),
    ((∃ g last, t = Some (AwaitStat p g last)) ∨ (∃ e, t = Some (Rejected e))) ∧
    lt = Some (lastTime item)).
  assert (φ (run_tasks (reload_run sched st) !! i)
            (lastTime_at i (run_state (reload_run sched st)))) as [Ht Hlt].
  { apply reload_run_at.
    - split; [|by unfold lastTime_at; rewrite Hi]. left. rewrite Hi. cbn.
      unfold _reloadFile. rewrite Hp, Htr. eauto.
    - intros r r' Hext [Ht Hlt] Hstep.
      pose proof (ext_nodes _ _ Hext) as Hn.
      destruct Ht as [(g & last & Ht)|[e Ht]].
      + destruct Hstep as [Hns _|p' g' l' w e Ht' Hs|p' g' l' w m Ht' Hs|p' g' l' w m Ht' Hs ?
                          |? ? ? ? Ht'|? ? ? ? Ht']; cbn; simplify_eq.
        * by destruct (Hns _ _ _ Ht).
        * split; [|done]. right. exists e.
          apply list_lookup_insert_eq. by eapply lookup_lt_Some.
        * by rewrite (stat_ok_inv st p _ _ _ Hn Hs) in Hno.
        * by rewrite (stat_ok_inv st p _ _ _ Hn Hs) in Hno.
      + split.
        * right. exists e. by eapply step_done_stays.
        * destruct Hstep; try done; simplify_eq. }
  unfold reload. cbn. split; [|done].
  destruct (reload_run_done sched st i) as (t & Ht' & Hd); [by eapply lookup_lt_Some|].
  destruct Ht as [(g & last & Ht)|[e Ht]]; [rewrite Ht in Ht'; by simplify_eq|].
  by eapply rejected_task_settles.
Qed.

(** A file that can be statted: its [lastTime] becomes a new [Date] with
    the time observed, whatever the read gives. *)
Lemma reload_stamps_file (sched : list nat) (st : State) (i : nat)
    (item : FileConf) (p : string) (n : Fs.Node) (ms : Z) :
  this_files (store st) !! i = Some item →
  path item = Some p → truthy_string p = true →
  Fs.w_nodes (world st) !! p = Some n → Fs.node_stat n = inr ms →
  (∀ d, lastTime item = Some d → date_ref d < Fs.w_next_ref (world st)) →
  ∃ d, lastTime_at i (reload sched st).1 = Some (Some d) ∧ date_ms d = ms ∧
       Fs.w_next_ref (world st) ≤ date_ref d.
Proof.
  intros Hi Hp Htr Hnode Hms Hfresh.
  set (stamped := λ lt : option (option Date),
    ∃ d, lt = Some (Some d) ∧ date_ms d = ms ∧ Fs.w_next_ref (world st) ≤ date_ref d).
  set (φ := λ (t : option Task) (lt : option (option Date)),
    (∃ g, t = Some (AwaitStat p g (lastTime item))) ∧ lt = Some (lastTime item) ∨
    (∃ t', t = Some t' ∧ stats_due t' = 0) ∧ stamped lt).
  assert (φ (run_tasks (reload_run sched st) !! i)
            (lastTime_at i (run_state (reload_run sched st)))) as Hφ.
  { apply reload_run_at.
    - left. unfold lastTime_at. rewrite Hi. cbn.
      unfold _reloadFile. rewrite Hp, Htr. eauto.
    - intros r r' Hext Hφ Hstep.
      assert (Fs.w_nodes (world (run_state r)) !! p = Some n) as Hn.
      { by rewrite (ext_nodes _ _ Hext). }
      destruct Hφ as [[[g Ht] Hlt]|[(t' & Ht & Hdue) Hst]].
      + right.
        destruct Hstep as [Hns _|p' g' l' w e' Ht' Hs|p' g' l' w m Ht' Hs Heq|p' g' l' w m Ht' Hs Heq
                          |? ? ? ? Ht'|? ? ? ? Ht']; cbn; simplify_eq.
        * by destruct (Hns _ _ _ Ht).
        * apply stat_inv in Hs as [(? & _ & _ & [[? _]|(? & ? & ?)])|(? & ? & [=] & _)];
            simplify_eq; congruence.
        * apply stat_inv in Hs as [(? & [=] & _)|(n' & ms' & [= ->] & _)].
          destruct (lastTime item) as [d|] eqn:Hd; [|done]. cbn in Heq.
          apply Nat.eqb_eq in Heq. pose proof (Hfresh d eq_refl).
          pose proof (ext_ref _ _ Hext). lia.
        * apply stat_inv in Hs as [(? & [=] & _)|(n' & ms' & [= ->] & _ & Hn' & Hms')].
          assert (ms' = ms) as -> by (simplify_eq; congruence). split.
          { eexists. split; [apply list_lookup_insert_eq; by eapply lookup_lt_Some|done]. }
          eexists. unfold lastTime_at in *. cbn. rewrite list_lookup_alter_eq.
          destruct (this_files (store (run_state r)) !! i); [|done]. cbn.
          split; [done|]. split; [done|]. cbn. apply (ext_ref _ _ Hext).
      + right.
        destruct Hstep as [| ? ? ? ? ? Ht' | ? ? ? ? ? Ht' | ? ? ? ? ? Ht'
                           | p' g' w e' Ht' Hr | p' g' w b Ht' Hr]; cbn;
          [eauto|by simplify_eq..| |];
          (split; [eexists; split; [apply list_lookup_insert_eq; by eapply lookup_lt_Some|done]
                  |done]). }
  unfold reload. cbn.
  destruct (reload_run_done sched st i) as (t & Ht' & Hd); [by eapply lookup_lt_Some|].
  destruct Hφ as [[[g Ht] _]|[_ ?]]; [rewrite Ht in Ht'; by simplify_eq|done].
Qed.

(** A file that can be statted and read never rejects its promise. *)
Lemma reload_readable_file (sched : list nat) (st : State) (i : nat) (item : FileConf) :
  this_files (store st) !! i = Some item →
  readable st item = true →
  ∀ e, run_tasks (reload_run sched st) !! i ≠ Some (Rejected e).
Proof.
  intros Hi Hre.
  set (φ := λ (t : option Task) (lt : option (option Date)),
    match t with
    | Some (AwaitStat p _ _) | Some (AwaitRead p _) => stat_ok st p && read_ok st p = true
    | Some Resolved => True
    | _ => False
    end).
  assert (φ (run_tasks (reload_run sched st) !! i)
            (lastTime_at i (run_state (reload_run sched st)))) as Hφ.
  { apply reload_run_at.
    - rewrite Hi. cbn. unfold readable, _reloadFile in *.
      destruct (path item) as [p|]; [|done]. by destruct (truthy_string p).
    - intros r r' Hext Hφ Hstep. pose proof (ext_nodes _ _ Hext) as Hn. unfold φ in *.
      destruct Hstep as [| p g last w e Ht Hs | p g last w m Ht Hs Heq
                         | p g last w m Ht Hs Heq | p g w e Ht Hr | p g w b Ht Hr];
        [done|..]; cbn; rewrite Ht in Hφ;
        rewrite list_lookup_insert_eq by (by eapply lookup_lt_Some); try done.
      + by rewrite (stat_ok_inv st p _ _ _ Hn Hs) in Hφ.
      + rewrite (read_ok_inv st p _ _ _ Hn Hr) in Hφ. by rewrite andb_false_r in Hφ. }
  intros e He. by rewrite He in Hφ.
Qed.

(** A reload that reports no error found every file in order. *)
Lemma reload_ok_readable (sched : list nat) (st : State) :
  dates_allocated st → (reload sched st).2 = None →
  Forall (λ item, readable st item = true) (this_files (store st)).
Proof.
  intros Hwf Hok. apply Forall_forall. intros item Hin.
  destruct (readable st item) eqn:Hre; [done|]. exfalso.
  apply list_elem_of_lookup in Hin as Hi. destruct Hi as [i Hi].
  assert (is_Some (reload sched st).2) as [e He]; [|congruence].
  unfold readable in Hre. destruct (path item) as [p|] eqn:Hp; [|done].
  destruct (truthy_string p) eqn:Htr; [|done]. cbn in Hre.
  destruct (stat_ok st p) eqn:Hst; cycle 1.
  { by apply (reload_unstattable_file sched st i item p). }
  cbn in Hre. unfold stat_ok, read_ok in Hst, Hre.
  destruct (Fs.w_nodes (world st) !! p) as [[[e|ms] [e'|b]]|] eqn:Hn; try done.
  apply (reload_unreadable_file sched st i item p ms e'); try done.
  intros d Hd. by eapply Hwf.
Qed.

(** X4. Once every [lastTime] is a [Date] of an earlier [stat], a reload
    reports no error exactly when every configured file that has a path
    can be statted and read; so whether it fails does not depend on the
    order of the callbacks, and one missing or unreadable file, default or
    not, fails it. *)
Theorem reload_succeeds_iff (sched : list nat) (st : State) :
  dates_allocated st →
  (reload sched st).2 = None
  ↔ Forall (λ item, readable st item = true) (this_files (store st)).
Proof.
  intros Hwf. split; [by apply reload_ok_readable|].
  intros Hall. rewrite Forall_forall in Hall.
  destruct (run_rejected (reload_run sched st)) as [e|] eqn:Hrej; [|done]. exfalso.
  destruct (settled_by_rejected_task sched st) as (i & e' & Hi); [by rewrite Hrej|].
  assert (is_Some (this_files (store st) !! i)) as [item Hitem].
  { apply lookup_lt_is_Some. apply lookup_lt_Some in Hi.
    assert (length (run_tasks (reload_run sched st)) = length (this_files (store st))) as <-;
      [|done].
    unfold reload_run. by rewrite !advance_all_length; cbn; rewrite length_map. }
  eapply (reload_readable_file sched st i item); [done| |done].
  apply Hall. by eapply list_elem_of_lookup_2.
Qed.

(** X5. After a reload, a configured file that could be statted has as
    [lastTime] a new [Date] holding the modification time observed,
    whether or not its content could then be read; a file that could not
    be statted keeps the [lastTime] it had. *)
Theorem reload_records_mtime (sched : list nat) (st : State) (i : nat)
    (item : FileConf) (p : string) :
  this_files (store st) !! i = Some item →
  path item = Some p → truthy_string p = true →
  (∀ d, lastTime item = Some d → date_ref d < Fs.w_next_ref (world st)) →
  (∀ n ms, Fs.w_nodes (world st) !! p = Some n → Fs.node_stat n = inr ms →
     ∃ d, lastTime_at i (reload sched st).1 = Some (Some d) ∧ date_ms d = ms ∧
          Fs.w_next_ref (world st) ≤ date_ref d) ∧
  (stat_ok st p = false → lastTime_at i (reload sched st).1 = Some (lastTime item)).
Proof.
  intros Hi Hp Htr Hfresh. split.
  - intros n ms Hn Hms. by eapply reload_stamps_file.
  - intros Hno. by apply (reload_unstattable_file sched st i item p).
Qed.

End Calls.

Section WriteBack.
Context `{Imports}.

Lemma merge_file_dom (st0 : State) (i : nat) (us : Users) :
  dom us ⊆ dom (merge_file st0 i us).
Proof.
  unfold merge_file. destruct (buffer_of st0 i) as [[buffer g]|]; [|done].
  unfold assign. rewrite dom_union_L. set_solver.
Qed.

Lemma merge_all_dom (st0 : State) (order : list nat) (us : Users) :
  dom us ⊆ dom (merge_all st0 order us).
Proof.
  revert us. induction order as [|i order IH]; intros us; [done|].
  cbn. etrans; [apply (merge_file_dom st0 i)|apply IH].
Qed.

(** A file that can be statted and read is merged by every reload. *)
Lemma reload_merges_readable_file (sched : list nat) (st : State) (i : nat)
    (item : FileConf) (p buffer : string) :
  dates_allocated st →
  this_files (store st) !! i = Some item →
  path item = Some p → truthy_string p = true →
  stat_ok st p = true →
  buffer_of st i = Some (buffer, groupName item) →
  ∃ us, dom (this_users (store st)) ⊆ dom us ∧
        dom (parseHTPasswd buffer (groupName item) us)
          ⊆ dom (this_users (store (reload sched st).1)).
Proof.
  intros Hwf Hi Hp Htr Hst Hbuf.
  destruct (reload_run_inv sched st Hwf) as [_ _ Hus _ _ Htask].
  destruct (reload_run_done sched st i) as (t & Ht & Hd); [by eapply lookup_lt_Some|].
  assert (i ∈ run_merged (reload_run sched st)) as Hin.
  { destruct (Htask i t Ht) as (item' & Hi' & Hok). simplify_eq.
    destruct t as [| | |e]; try done.
    - destruct Hok as [?|Hno]; [done|]. unfold _reloadFile in Hno.
      by rewrite Hp, Htr in Hno.
    - destruct (reload_readable_file sched st i item Hi) with e; [|done].
      unfold readable. rewrite Hp, Htr, Hst. cbn.
      unfold buffer_of in Hbuf. rewrite Hi in Hbuf. cbn in Hbuf. rewrite Hp in Hbuf.
      cbn in Hbuf. unfold read_ok.
      destruct (Fs.w_nodes (world st) !! p) as [n|]; [|done]. cbn in Hbuf.
      by destruct (Fs.node_data n). }
  apply list_elem_of_split in Hin as (l1 & l2 & Hl).
  exists (merge_all st l1 (this_users (store st))). split; [apply merge_all_dom|].
  unfold reload. cbn. rewrite Hus, Hl. unfold merge_all at 2.
  rewrite fold_left_app. cbn. fold (merge_all st l1 (this_users (store st))).
  etrans; [|apply (merge_all_dom st l2)].
  unfold merge_file at 1. rewrite Hbuf. unfold assign. rewrite dom_union_L. set_solver.
Qed.

(** [_writeFile] when the write succeeds. *)
Lemma _writeFile_success (sched : list nat) (body : string) (locked : bool)
    (p : string) (st : State) :
  Fs.w_write_err (world st) = None →
  let out := _writeFile sched body (cb locked p) st in
  out.2 = (None, true) ∧
  Fs.node_data <$> Fs.w_nodes (world out.1) !! this_path (store st) = Some (inr body) ∧
  (∀ q, q ≠ this_path (store st) →
        Fs.w_nodes (world out.1) !! q = Fs.w_nodes (world st) !! q) ∧
  (∃ evs, Fs.w_trace (world out.1)
          = Fs.w_trace (world st) ++ [Fs.EvWriteFile (this_path (store st)) body] ++ evs
            ++ (if locked then [Fs.EvUnlock p] else []) ∧
          Forall (λ e, is_probe e = true) evs) ∧
  (dates_allocated st → default_is_configured (store st) →
   ∃ us, dom (this_users (store st)) ⊆ dom us ∧
         dom (parseHTPasswd body (groupName (this_defaultConfig (store st))) us)
           ⊆ dom (this_users (store out.1))).
Proof.
  intros Hw. cbv zeta. unfold _writeFile, Fs.writeFile. cbn -[reload cb]. rewrite Hw.
  set (st1 := set_world (Fs.put _ _ _) st).
  destruct (reload sched st1) as [st2 rerr] eqn:Hr.
  assert (st2 = (reload sched st1).1) as Hst2 by (by rewrite Hr).
  pose proof (reload_extends sched st1) as Hext. rewrite <-Hst2 in Hext.
  destruct (cb_world locked p None st2) as [Hn Htr].
  rewrite cb_result, Hn, Htr, cb_store, (ext_nodes _ _ Hext).
  destruct (ext_trace _ _ Hext) as (evs & Hevs & Hprobe). rewrite Hevs.
  repeat apply conj.
  - done.
  - subst st1. cbn. by rewrite lookup_insert_eq.
  - intros q Hq. subst st1. cbn. by rewrite lookup_insert_ne.
  - exists evs. subst st1. cbn. by rewrite <-!app_assoc.
  - intros Hwf (i & item & Hi & Hdef & Hp & Htr' & Hsame).
    destruct Hsame as (_ & _ & Hg & _). rewrite <-Hg, Hst2.
    apply (reload_merges_readable_file sched st1 i item (this_path (store st)) body).
    + by eapply dates_allocated_mono.
    + done.
    + done.
    + done.
    + unfold stat_ok. subst st1. cbn. by rewrite lookup_insert_eq.
    + unfold buffer_of. subst st1. cbn. rewrite Hi. cbn. rewrite Hp. cbn.
      by rewrite lookup_insert_eq.
Qed.

End WriteBack.

Section Success.
Context `{Imports}.


(** X7. [adduser] when both checks pass, the lock-and-read step reports
    nothing worse than ENOENT, the helper returns the new content and the
    write succeeds: the caller gets [(null, true)], even if the reload
    after the write fails; the default file holds the new content (it is
    created if it was missing) and no other file changes; the write comes
    right after the lock was asked for and before any unlock; and, once
    the callbacks of the reload have run, the index is refreshed from the
    content written. *)
Theorem adduser_success (sched : list nat) (user password : string) (st : State)
    (w : Fs.World) (err : option JsError) (res : option string) (content : string) :
  sanityCheck user password verifyPassword
              (this_users (store st)) (this_maxUsers (store st)) = None →
  Fs.lockAndRead (this_path (store st)) (world st) = (w, (err, res)) →
  fatal err = None →
  sanityCheck user password verifyPassword
              (this_users (store (merged_state st w res))) (this_maxUsers (store st)) = None →
  addUserToHTPasswd (_stringToUt8 res) user password = inr content →
  Fs.w_write_err (world st) = None →
  let out := adduser sched user password st in
  let p := this_path (store st) in
  out.2 = (None, true) ∧
  Fs.node_data <$> Fs.w_nodes (world out.1) !! p = Some (inr content) ∧
  (∀ q, q ≠ p → Fs.w_nodes (world out.1) !! q = Fs.w_nodes (world st) !! q) ∧
  (∃ evs evs', Fs.w_trace (world out.1)
               = Fs.w_trace (world st)
                 ++ [Fs.EvLockAndRead p; Fs.EvWriteFile p content] ++ evs
                 ++ (if no_error err then [Fs.EvUnlock p] else []) ++ evs' ∧
               Forall (λ e, is_probe e = true) (evs ++ evs')) ∧
  (dates_allocated st → default_is_configured (store st) →
   ∃ us, dom (this_users (store st)) ⊆ dom us ∧
         dom (parseHTPasswd content (groupName (this_defaultConfig (store st))) us)
           ⊆ dom (this_users (store out.1))).
Proof.
  intros Hpre Hl Hf Hpost Hc Hw. cbv zeta.
  apply lockAndRead_inv in Hl as Hl'. destruct Hl' as (Hn & Hwe & Htr & _).
  set (st1 := merged_state st w res).
  assert (Fs.w_write_err (world st1) = None) as Hw1 by (by cbn; rewrite Hwe).
  destruct (_writeFile_success sched content (no_error err) (this_path (store st)) st1 Hw1)
    as (Hres & Hdata & Hother & (evs & Hevs & Hprobe) & Hidx).
  assert (adduser sched user password st
          = _writeFile sched content (cb (no_error err) (this_path (store st))) st1) as ->.
  { unfold adduser. rewrite Hpre, Hl. cbn [store set_world]. rewrite Hf.
    unfold st1, merged_state in *.
    cbn [store set_world set_users this_maxUsers this_users] in *.
    by rewrite Hpost, Hc. }
  cbn [st1 merged_state store set_users set_world this_path world] in *.
  repeat apply conj.
  - done.
  - done.
  - intros q Hq. by rewrite Hother, Hn.
  - exists evs, []. rewrite Hevs, Htr, !app_nil_r, <-!app_assoc. by split.
  - intros Hwf Hdef.
    destruct Hidx as (us & Hus & Hdom).
    + eapply dates_allocated_mono; [done..|].
      pose proof (lockAndRead_ref (this_path (store st)) (world st)) as Hr.
      rewrite Hl in Hr. cbn in Hr |- *. lia.
    + destruct Hdef as (i & item & ? & ? & ? & ? & ?). by exists i, item.
    + exists us. split; [|done]. etrans; [|exact Hus].
      cbn. unfold assign. rewrite dom_union_L. set_solver.
Qed.

(** X8. [changePassword] when the lock-and-read step reports nothing worse
    than ENOENT, the user has an entry in the content read, the helper
    returns the new content and the write succeeds: the caller gets
    [(null, true)], the default file holds the new content and no other
    file changes, the write comes right after the lock was asked for and
    before any unlock, and, once the callbacks of the reload have run,
    the index is refreshed from the content written. *)
Theorem changePassword_success (sched : list nat) (user password newPassword : string)
    (st : State) (w : Fs.World) (err : option JsError) (res : option string)
    (content : string) :
  Fs.lockAndRead (this_path (store st)) (world st) = (w, (err, res)) →
  fatal err = None →
  is_Some (parseHTPasswd (_stringToUt8 res) (groupName (this_defaultConfig (store st)))
                         (this_users (store st)) !! user) →
  changePasswordToHTPasswd (_stringToUt8 res) user password newPassword = inr content →
  Fs.w_write_err (world st) = None →
  let out := changePassword sched user password newPassword st in
  let p := this_path (store st) in
  out.2 = (None, true) ∧
  Fs.node_data <$> Fs.w_nodes (world out.1) !! p = Some (inr content) ∧
  (∀ q, q ≠ p → Fs.w_nodes (world out.1) !! q = Fs.w_nodes (world st) !! q) ∧
  (∃ evs evs', Fs.w_trace (world out.1)
               = Fs.w_trace (world st)
                 ++ [Fs.EvLockAndRead p; Fs.EvWriteFile p content] ++ evs
                 ++ (if no_error err then [Fs.EvUnlock p] else []) ++ evs' ∧
               Forall (λ e, is_probe e = true) (evs ++ evs')) ∧
  (dates_allocated st → default_is_configured (store st) →
   ∃ us, dom (this_users (store st)) ⊆ dom us ∧
         dom (parseHTPasswd content (groupName (this_defaultConfig (store st))) us)
           ⊆ dom (this_users (store out.1))).
Proof.
  intros Hl Hf [u Hu] Hc Hw. cbv zeta.
  apply lockAndRead_inv in Hl as Hl'. destruct Hl' as (Hn & Hwe & Htr & _).
  set (st1 := merged_state st w res).
  assert (Fs.w_write_err (world st1) = None) as Hw1 by (by cbn; rewrite Hwe).
  destruct (_writeFile_success sched content (no_error err) (this_path (store st)) st1 Hw1)
    as (Hres & Hdata & Hother & (evs & Hevs & Hprobe) & Hidx).
  assert (changePassword sched user password newPassword st
          = _writeFile sched content (cb (no_error err) (this_path (store st))) st1) as ->.
  { unfold changePassword. rewrite Hl. cbn [store set_world]. rewrite Hf.
    unfold st1, merged_state in *.
    cbn [store set_world set_users this_maxUsers this_users] in *.
    by rewrite Hu, Hc. }
  cbn [st1 merged_state store set_users set_world this_path world] in *.
  repeat apply conj.
  - done.
  - done.
  - intros q Hq. by rewrite Hother, Hn.
  - exists evs, []. rewrite Hevs, Htr, !app_nil_r, <-!app_assoc. by split.
  - intros Hwf Hdef.
    destruct Hidx as (us & Hus & Hdom).
    + eapply dates_allocated_mono; [done..|].
      pose proof (lockAndRead_ref (this_path (store st)) (world st)) as Hr.
      rewrite Hl in Hr. cbn in Hr |- *. lia.
    + destruct Hdef as (i & item & ? & ? & ? & ? & ?). by exists i, item.
    + exists us. split; [|done]. etrans; [|exact Hus].
      cbn. unfold assign. rewrite dom_union_L. set_solver.
Qed.

End Success.

Section Default.
Context `{Imports}.

#[local] Instance touches_preorder (p : string) : PreOrder (touches p).
Proof.
  split.
  - intros st. split; [|done]. exists []. by rewrite app_nil_r.
  - intros a b c [(e1 & He1 & H1) Hn1] [(e2 & He2 & H2) Hn2]. split.
    + exists (e1 ++ e2). rewrite He2, He1, app_assoc. split; [done|]. by apply Forall_app.
    + intros q Hq. by rewrite Hn2, Hn1.
Qed.

Lemma touches_one (p : string) (e : Fs.Event) (st st' : State) :
  mutation_event p e →
  Fs.w_trace (world st') = Fs.w_trace (world st) ++ [e] →
  (∀ q, q ≠ p → Fs.w_nodes (world st') !! q = Fs.w_nodes (world st) !! q) →
  touches p st st'.
Proof. intros He Htr Hn. split; [|done]. exists [e]. split; [done|]. by constructor. Qed.

Lemma touches_extends (p : string) (st st' : State) : extends st st' → touches p st st'.
Proof.
  intros Hext. split.
  - destruct (ext_trace _ _ Hext) as (evs & -> & Hall). exists evs. split; [done|].
    eapply Forall_impl; [exact Hall|]. intros e He. by left.
  - intros q _. by rewrite (ext_nodes _ _ Hext).
Qed.

Lemma touches_cb (locked : bool) (p : string) (err : option JsError) (st : State) :
  touches p st (cb locked p err st).1.
Proof.
  destruct (cb_world locked p err st) as [Hn Htr]. destruct locked.
  - eapply touches_one; [|done|by intros; rewrite Hn]. by right; right; right.
  - split; [|by intros; rewrite Hn]. exists []. by rewrite Htr.
Qed.

Lemma touches_lockAndRead (st : State) (us : Users) :
  touches (this_path (store st)) st
    (set_users us (set_world (Fs.lockAndRead (this_path (store st)) (world st)).1 st)).
Proof.
  destruct (Fs.lockAndRead _ _) as [w [err res]] eqn:Hl.
  apply lockAndRead_inv in Hl as (Hn & _ & Htr & _).
  eapply touches_one; [|done|by intros; cbn; rewrite Hn]. by right; left.
Qed.

Lemma touches__writeFile (sched : list nat) (body : string) (locked : bool) (st : State) :
  touches (this_path (store st)) st
    (_writeFile sched body (cb locked (this_path (store st))) st).1.
Proof.
  unfold _writeFile, Fs.writeFile. cbn -[reload cb].
  set (wl := Fs.log (Fs.EvWriteFile (this_path (store st)) body) (world st)).
  assert (touches (this_path (store st)) st (set_world wl st)) as Hlog.
  { apply (touches_one _ (Fs.EvWriteFile (this_path (store st)) body)); [|done..].
    right; right; left. by eexists. }
  destruct (Fs.w_write_err (world st)).
  - etrans; [exact Hlog|]. apply (touches_cb locked _ _ (set_world wl st)).
  - set (st1 := set_world (Fs.put _ _ _) st).
    assert (touches (this_path (store st)) (set_world wl st) st1) as Hput.
    { split; [exists []; by rewrite app_nil_r|]. intros q Hq. cbn.
      by rewrite lookup_insert_ne. }
    destruct (reload sched st1) as [st2 rerr] eqn:Hr.
    assert (touches (this_path (store st)) st1 st2) as Hre.
    { apply touches_extends. change st2 with (st2, rerr).1. rewrite <-Hr.
      apply reload_extends. }
    etrans; [exact Hlog|]. etrans; [exact Hput|]. etrans; [exact Hre|]. apply touches_cb.
Qed.

Lemma adduser_touches (sched : list nat) (user password : string) (st : State) :
  touches (this_path (store st)) st (adduser sched user password st).1.
Proof.
  unfold adduser. destruct (sanityCheck _ _ _ _ _); [done|].
  pose proof (touches_lockAndRead st) as Hl.
  destruct (Fs.lockAndRead _ _) as [w [err res]]. cbn [fst] in Hl.
  assert (touches (this_path (store st)) st (set_world w st)) as Hw.
  { destruct (Hl (this_users (store st))) as [Ht Hn]. by split. }
  destruct (fatal err); [etrans; [exact Hw|apply touches_cb]|].
  destruct (sanityCheck _ _ _ _ _); [etrans; [apply Hl|apply touches_cb]|].
  destruct (addUserToHTPasswd _ _ _); [etrans; [apply Hl|apply touches_cb]|].
  etrans; [apply Hl|]. apply (touches__writeFile sched _ _ (set_users _ (set_world w st))).
Qed.

Lemma changePassword_touches (sched : list nat) (user password newPassword : string)
    (st : State) :
  touches (this_path (store st)) st (changePassword sched user password newPassword st).1.
Proof.
  unfold changePassword.
  pose proof (touches_lockAndRead st) as Hl.
  destruct (Fs.lockAndRead _ _) as [w [err res]]. cbn [fst] in Hl.
  assert (touches (this_path (store st)) st (set_world w st)) as Hw.
  { destruct (Hl (this_users (store st))) as [Ht Hn]. by split. }
  destruct (fatal err); [etrans; [exact Hw|apply touches_cb]|].
  destruct (_ !! user); [|etrans; [apply Hl|apply touches_cb]].
  destruct (changePasswordToHTPasswd _ _ _ _); [etrans; [apply Hl|apply touches_cb]|].
  etrans; [apply Hl|]. apply (touches__writeFile sched _ _ (set_users _ (set_world w st))).
Qed.

(** A callback that follows the lock-and-read step makes no write and
    changes no file. *)
Lemma cb_after_read_quiet (st : State) (w : Fs.World) (err e : option JsError)
    (res : option string) (us : Users) :
  Fs.lockAndRead (this_path (store st)) (world st) = (w, (err, res)) →
  let out := cb (no_error err) (this_path (store st)) e (set_users us (set_world w st)) in
  count_ev Fs.is_write out.1 = count_ev Fs.is_write st ∧
  Fs.w_nodes (world out.1) = Fs.w_nodes (world st).
Proof.
  intros Hl. cbv zeta.
  pose proof (lockAndRead_count Fs.is_write st w _ Hl) as Hc. cbn in Hc.
  apply lockAndRead_inv in Hl as (Hn & _).
  rewrite cb_count, set_users_count, Hc, andb_false_r.
  destruct (cb_world (no_error err) (this_path (store st)) e
              (set_users us (set_world w st))) as [-> _].
  split; [cbn; lia|done].
Qed.

(** X9. [adduser] and [changePassword] work on the default file only: the
    calls they add are those of a reload ([stat], [readFile]) and the
    lock, the write and the unlock on [this.path], and no file other than
    [this.path] changes, whatever the helpers and the disk do. *)
Theorem mutations_work_on_default_file (sched : list nat)
    (user password newPassword : string) (st : State) :
  touches (this_path (store st)) st (adduser sched user password st).1 ∧
  touches (this_path (store st)) st
    (changePassword sched user password newPassword st).1.
Proof. split; [apply adduser_touches|apply changePassword_touches]. Qed.

(** X10. While writing the default file cannot fail, a call of [adduser]
    or [changePassword] that reports an error has made no write and has
    left every file as it was: a rejected mutation never leaves a
    half-done change on disk. *)
Theorem rejected_mutation_writes_nothing (sched : list nat)
    (user password newPassword : string) (st : State) :
  Fs.w_write_err (world st) = None →
  let a := adduser sched user password st in
  let c := changePassword sched user password newPassword st in
  (is_Some a.2.1 →
     count_ev Fs.is_write a.1 = count_ev Fs.is_write st ∧
     Fs.w_nodes (world a.1) = Fs.w_nodes (world st)) ∧
  (is_Some c.2.1 →
     count_ev Fs.is_write c.1 = count_ev Fs.is_write st ∧
     Fs.w_nodes (world c.1) = Fs.w_nodes (world st)).
Proof.
  intros Hw. cbv zeta. split.
  - unfold adduser. destruct (sanityCheck _ _ _ _ _); [done|].
    destruct (Fs.lockAndRead _ _) as [w [err res]] eqn:Hl.
    pose proof (cb_after_read_quiet st w err) as Hcb. cbv zeta in Hcb.
    apply lockAndRead_inv in Hl as Hinv. destruct Hinv as (_ & Hwe & _).
    cbn [fst snd store set_world].
    destruct (fatal err).
    { intros _. specialize (Hcb (Some j) res (this_users (store st)) Hl).
      clear -Hcb. by destruct st as [[] ?]. }
    destruct (sanityCheck _ _ _ _ _); [intros _; by eapply Hcb|].
    destruct (addUserToHTPasswd _ _ _); [intros _; by eapply Hcb|].
    rewrite _writeFile_result. cbn. rewrite Hwe, Hw. by intros [? ?].
  - unfold changePassword.
    destruct (Fs.lockAndRead _ _) as [w [err res]] eqn:Hl.
    pose proof (cb_after_read_quiet st w err) as Hcb. cbv zeta in Hcb.
    apply lockAndRead_inv in Hl as Hinv. destruct Hinv as (_ & Hwe & _).
    cbn [fst snd store set_world].
    destruct (fatal err).
    { intros _. specialize (Hcb (Some j) res (this_users (store st)) Hl).
      clear -Hcb. by destruct st as [[] ?]. }
    destruct (_ !! user); [|intros _; by eapply Hcb].
    destruct (changePasswordToHTPasswd _ _ _ _); [intros _; by eapply Hcb|].
    rewrite _writeFile_result. cbn. rewrite Hwe, Hw. by intros [? ?].
Qed.

End Default.

Section Life.
Context `{Imports}.

#[local] Instance same_conf_trans : Transitive same_conf.
Proof. intros a b c (? & ? & ? & ?) (? & ? & ? & ?). repeat split; congruence. Qed.

Lemma keeps_default_is_configured (s s' : HTPasswd) :
  keeps s s' → default_is_configured s → default_is_configured s'.
Proof.
  intros Hk (i & item & Hi & Hd & Hp & Htr & Hsame).
  destruct (Forall2_lookup_l _ _ _ _ _ (keeps_files _ _ Hk) Hi) as (item' & Hi' & Hs).
  destruct Hs as (Hs1 & Hs2 & Hs3 & Hs4).
  exists i, item'. rewrite (keeps_path _ _ Hk), (keeps_default _ _ Hk).
  split; [done|]. split; [congruence|]. split; [congruence|]. split; [done|].
  destruct Hsame as (? & ? & ? & ?). repeat split; congruence.
Qed.

Lemma perform_keeps (sched : list nat) (c : Call) (st : State) :
  keeps (store st) (store (perform sched c st)).
Proof.
  destruct c; cbn.
  - apply reload_keeps.
  - apply authenticate_keeps.
  - apply adduser_keeps.
  - apply changePassword_keeps.
Qed.

Lemma perform_dates (sched : list nat) (c : Call) (st : State) :
  dates_allocated st → dates_allocated (perform sched c st).
Proof.
  intros Hwf.
  destruct (dates_allocated_preserved sched "" "" "" st Hwf) as (Hr & _).
  destruct c as [|u pw|u pw|u pw npw]; cbn; [done|..].
  - by destruct (dates_allocated_preserved sched u pw "" st Hwf) as (_ & ? & _).
  - by destruct (dates_allocated_preserved sched u pw "" st Hwf) as (_ & _ & ? & _).
  - by destruct (dates_allocated_preserved sched u pw npw st Hwf) as (_ & _ & _ & ?).
Qed.

Lemma constructor_default_is_configured (config : AuthConf) (self_path : string)
    (s : HTPasswd) :
  constructor config self_path = inr s → default_is_configured s.
Proof.
  unfold constructor. destruct (conf_files config) as [cfiles|]; [|done].
  case_bool_decide; [done|].
  destruct (List.find _ _) as [d|] eqn:Hf; [|done].
  destruct (path d) as [p|] eqn:Hp; [|done]. destruct (truthy_string p) eqn:Htr; [|done].
  intros [= <-]. apply find_some in Hf as [Hin Hd].
  apply list_elem_of_In, list_elem_of_lookup in Hin as [i Hi].
  exists i, d. by cbn.
Qed.

(** X11. In every state a store goes through, from its construction
    through any calls of [reload], [authenticate], [adduser] and
    [changePassword] in any callback order, with any edits of the disk by
    others in between: the configured files are those of the
    configuration with their paths resolved, [maxUsers] is the configured
    limit or [Infinity], [this.path] is the non-empty path of a configured
    entry marked default, and (the configuration carrying no [lastTime])
    every [lastTime] is the [Date] of an earlier [stat]. *)
Theorem store_invariant (cfiles : list FileConf) (m : option JsNumber)
    (self_path : string) (st : State) :
  reachable (mkAuthConf (Some cfiles) m) self_path st →
  Forall (λ item, lastTime item = None) cfiles →
  Forall2 same_conf (map (resolve_item self_path) cfiles) (this_files (store st)) ∧
  this_maxUsers (store st) = or_number m Infinity ∧
  default_is_configured (store st) ∧
  dates_allocated st.
Proof.
  intros Hreach Hnone. induction Hreach as [s w Hc|sched c st Hreach IH|st w' Hreach IH Hed].
  - split; [|split; [|split]].
    + revert Hc. unfold constructor. cbn. case_bool_decide; [done|].
      destruct (List.find _ _) as [d|]; [|done].
      destruct (path d) as [p|]; [|done]. destruct (truthy_string p); [|done].
      intros [= <-]. cbn. apply Forall2_same_length_lookup. split; [done|].
      intros i x y Hx Hy. by simplify_eq.
    + revert Hc. unfold constructor. cbn. case_bool_decide; [done|].
      destruct (List.find _ _) as [d|]; [|done].
      destruct (path d) as [p|]; [|done]. destruct (truthy_string p); [|done].
      by intros [= <-].
    + by eapply constructor_default_is_configured.
    + by eapply constructor_dates.
  - destruct IH as (Hf & Hm & Hd & Hwf).
    pose proof (perform_keeps sched c st) as Hk.
    split; [|split; [|split]].
    + etrans; [exact Hf|exact (keeps_files _ _ Hk)].
    + by rewrite (keeps_max _ _ Hk).
    + by eapply keeps_default_is_configured.
    + by apply perform_dates.
  - destruct IH as (Hf & Hm & Hd & Hwf). destruct Hed as [Href _].
    split; [done|]. split; [done|]. split; [done|].
    intros item d Hin Hl. cbn. rewrite Href. by eapply Hwf.
Qed.

(** X12. What an answer of [authenticate] tells about the disk and the
    index, once every [lastTime] is the [Date] of an earlier [stat]:
    groups are handed out only when every configured file could be
    statted and read and the password verifies against the entry of the
    user in the index, and the groups are those of that entry; [false] is
    answered only when every file could be read and no entry of the user
    verifies; an error handed to the caller is what [stat] or [readFile]
    reported for a configured file and is not ENOENT; and the answer
    without error and result stands for an ENOENT of a configured file. *)
Theorem authenticate_answer_sound (sched : list nat) (user password : string)
    (st : State) :
  dates_allocated st →
  let out := authenticate sched user password st in
  let all_read := Forall (λ item, readable st item = true) (this_files (store st)) in
  (∀ gs, out.2 = (None, ResGroups gs) →
     all_read ∧
     ∃ u, this_users (store out.1) !! user = Some u ∧
          verifyPassword password (passwd u) = true ∧ groups u = gs) ∧
  (out.2 = (None, ResFalse) →
     all_read ∧
     ∀ u, this_users (store out.1) !! user = Some u →
          verifyPassword password (passwd u) = false) ∧
  (∀ e, out.2.1 = Some e → is_ENOENT e = false ∧ error_of_file st e) ∧
  (out.2 = (None, ResUndefined) → ∃ e, is_ENOENT e = true ∧ error_of_file st e).
Proof.
  intros Hwf. cbv zeta.
  pose proof (reload_ok_readable sched st Hwf) as Hok.
  pose proof (reload_error_of_file sched st) as Herr.
  unfold authenticate. destruct (reload sched st) as [st' [e|]]; cbn in Hok, Herr.
  - destruct (is_ENOENT e) eqn:Hen; cbn.
    + split; [done|]. split; [done|]. split; [done|]. intros _. exists e. auto.
    + split; [done|]. split; [done|]. split; [|done]. intros e' [= <-]. auto.
  - destruct (this_users (store st') !! user) as [u|] eqn:Hu; cbn.
    + destruct (verifyPassword password (passwd u)) eqn:Hv; cbn.
      * split; [|done]. intros gs [= <-]. split; [auto|]. exists u. by rewrite Hu.
      * split; [done|]. split; [|done]. intros _. split; [auto|].
        intros u'. rewrite Hu. by intros [= <-].
    + split; [done|]. split; [|done]. intros _. split; [auto|]. by rewrite Hu.
Qed.

End Life.

Section Partial.
Context `{Imports}.




End Partial.

(** * The further properties on the README configuration *)

Section FurtherWitnesses.
Import Concrete Scenario.

(** The store of the README has no [lastTime] yet, whatever is on disk. *)
Lemma store0_dates_allocated (w : Fs.World) : dates_allocated (mkState store0 w).
Proof.
  apply (constructor_dates readme_files None self_path store0 w store0_constructed).
  by repeat constructor.
Qed.

(** X2 on a default file that can be statted but not read: it is read
    once, the callbacks of the admin file firing later; and the admin file
    is read once as well. *)
Lemma reload_reads_every_statted_file_witness :
  let st := mkState store0 disk_unreadable in
  dates_allocated st ∧
  count_ev (is_readFile_on (String.eqb dev_path)) (reload [1; 0] st).1 = 1 ∧
  count_ev (is_readFile_on (String.eqb admin_path)) (reload [1; 0] st).1 = 1.
Proof.
  cbv zeta. split; [apply store0_dates_allocated|]. split.
  - exact (@reload_reads_every_statted_file imports [1; 0] (mkState store0 disk_unreadable)
             (String.eqb dev_path) (store0_dates_allocated disk_unreadable)).
  - exact (@reload_reads_every_statted_file imports [1; 0] (mkState store0 disk_unreadable)
             (String.eqb admin_path) (store0_dates_allocated disk_unreadable)).
Defined.

(** X4 on the README store with both files on disk, the callbacks of the
    default file firing first. *)
Lemma reload_succeeds_iff_witness :
  dates_allocated fresh ∧
  Forall (λ item, readable fresh item = true) (this_files (store fresh)) ∧
  (reload [1; 0] fresh).2 = None.
Proof.
  assert (Forall (λ item, readable fresh item = true) (this_files (store fresh))) as Hall.
  { repeat constructor. }
  split; [exact fresh_dates_allocated|]. split; [exact Hall|].
  exact (proj2 (@reload_succeeds_iff imports [1; 0] fresh fresh_dates_allocated) Hall).
Defined.

(** X5 on the admin file of the README store, modified at time 5. *)
Lemma reload_records_mtime_witness :
  Fs.w_nodes (world fresh) !! admin_path
  = Some (Fs.mkNode (inr 5%Z) (inr ("alice:h1" +:+ nl +:+ "bob:hb" +:+ nl))) ∧
  ∃ d, lastTime_at 0 (reload [] fresh).1 = Some (Some d) ∧ date_ms d = 5%Z ∧
       Fs.w_next_ref (world fresh) ≤ date_ref d.
Proof.
  split; [by vm_compute|].
  refine (proj1 (@reload_records_mtime imports [] fresh 0 admin_conf admin_path _ _ _ _)
            (Fs.mkNode (inr 5%Z) (inr ("alice:h1" +:+ nl +:+ "bob:hb" +:+ nl))) 5%Z _ _).
  - reflexivity.
  - reflexivity.
  - reflexivity.
  - intros d Hd. discriminate Hd.
  - by vm_compute.
  - reflexivity.
Defined.

(** X7 on a default file that does not exist yet: [adduser] creates it
    with the line of the new user. *)
Lemma adduser_success_witness :
  let st := mkState store0 disk_no_default in
  let out := adduser [] "carol" "pw" st in
  Fs.w_nodes (world st) !! dev_path = None ∧
  out.2 = (None, true) ∧
  Fs.node_data <$> Fs.w_nodes (world out.1) !! dev_path
  = Some (inr ("carol:" +:+ hash "pw" +:+ nl)).
Proof.
  cbv zeta.
  pose proof (@adduser_success imports [] "carol" "pw" (mkState store0 disk_no_default)
    (Fs.lockAndRead dev_path disk_no_default).1
    (Fs.lockAndRead dev_path disk_no_default).2.1
    (Fs.lockAndRead dev_path disk_no_default).2.2
    ("carol:" +:+ hash "pw" +:+ nl)) as Hs.
  cbv zeta in Hs. split; [by vm_compute|].
  destruct Hs as (Hres & Hfile & _).
  - by vm_compute.
  - by destruct (Fs.lockAndRead _ _) as [? [? ?]].
  - by vm_compute.
  - by vm_compute.
  - by vm_compute.
  - reflexivity.
  - split; [exact Hres|exact Hfile].
Defined.

(** X8 on [alice] of the default file of the loaded README store. *)
Lemma changePassword_success_witness :
  let out := changePassword [] "alice" "old" "new" loaded in
  Fs.node_data <$> Fs.w_nodes (world loaded) !! dev_path = Some (inr ("alice:h2" +:+ nl)) ∧
  out.2 = (None, true) ∧
  Fs.node_data <$> Fs.w_nodes (world out.1) !! dev_path
  = Some (inr ("alice:" +:+ hash "new" +:+ nl)).
Proof.
  cbv zeta.
  pose proof (@changePassword_success imports [] "alice" "old" "new" loaded
    (Fs.lockAndRead dev_path (world loaded)).1
    (Fs.lockAndRead dev_path (world loaded)).2.1
    (Fs.lockAndRead dev_path (world loaded)).2.2
    ("alice:" +:+ hash "new" +:+ nl)) as Hs.
  cbv zeta in Hs. split; [by vm_compute|].
  destruct Hs as (Hres & Hfile & _).
  - change (this_path (store loaded)) with dev_path.
    by destruct (Fs.lockAndRead _ _) as [? [? ?]].
  - by vm_compute.
  - vm_compute. by eexists.
  - by vm_compute.
  - by vm_compute.
  - split; [exact Hres|exact Hfile].
Defined.

(** X10 on the loaded README store: [alice] exists already, and [bob] is
    not in the default file. *)
Lemma rejected_mutation_writes_nothing_witness :
  let a := adduser [] "alice" "pw" loaded in
  let c := changePassword [] "bob" "old" "new" loaded in
  Fs.w_write_err (world loaded) = None ∧
  a.2.1 = Some err_user_exists ∧
  Fs.w_nodes (world a.1) = Fs.w_nodes (world loaded) ∧
  c.2.1 = Some err_user_not_found ∧
  Fs.w_nodes (world c.1) = Fs.w_nodes (world loaded).
Proof.
  cbv zeta.
  assert ((adduser [] "alice" "pw" loaded).2.1 = Some err_user_exists) as Ha.
  { by vm_compute. }
  assert ((changePassword [] "bob" "old" "new" loaded).2.1 = Some err_user_not_found) as Hc.
  { by vm_compute. }
  destruct (@rejected_mutation_writes_nothing imports [] "alice" "pw" "" loaded eq_refl)
    as [Hadd _].
  destruct (@rejected_mutation_writes_nothing imports [] "bob" "old" "new" loaded eq_refl)
    as [_ Hchg].
  split; [reflexivity|]. split; [exact Ha|].
  split; [apply Hadd; rewrite Ha; by eexists|].
  split; [exact Hc|]. apply Hchg. rewrite Hc. by eexists.
Defined.

(** X11 on the README store after a failed login and the registration of
    a user. *)
Lemma store_invariant_witness :
  let st := perform [1; 0] (CallAdduser "carol" "pw")
              (perform [] (CallAuthenticate "alice" "wrong") fresh) in
  reachable readme_conf self_path st ∧
  this_maxUsers (store st) = Infinity ∧
  default_is_configured (store st) ∧
  dates_allocated st.
Proof.
  cbv zeta.
  assert (reachable readme_conf self_path
            (perform [1; 0] (CallAdduser "carol" "pw")
               (perform [] (CallAuthenticate "alice" "wrong") fresh))) as Hreach.
  { apply reach_call, reach_call. apply (reach_new _ _ store0 disk store0_constructed). }
  assert (Forall (λ item, lastTime item = None) readme_files) as Hnone.
  { by repeat constructor. }
  split; [exact Hreach|].
  exact (proj2 (@store_invariant imports readme_files None self_path _ Hreach Hnone)).
Defined.

(** X12 on the README store after the registration of [carol]. *)
Lemma authenticate_answer_sound_witness :
  let st := (adduser [] "carol" "pw" fresh).1 in
  let out := authenticate [] "carol" "pw" st in
  dates_allocated st ∧
  out.2 = (None, ResGroups {["developer"]}) ∧
  Forall (λ item, readable st item = true) (this_files (store st)) ∧
  ∃ u, this_users (store out.1) !! "carol" = Some u ∧
       verifyPassword "pw" (passwd u) = true ∧ groups u = {["developer"]}.
Proof.
  cbv zeta.
  assert (dates_allocated (adduser [] "carol" "pw" fresh).1) as Hwf.
  { apply (perform_dates [] (CallAdduser "carol" "pw") fresh fresh_dates_allocated). }
  assert ((authenticate [] "carol" "pw" (adduser [] "carol" "pw" fresh).1).2
          = (None, ResGroups {["developer"]})) as Hout.
  { by vm_compute. }
  split; [exact Hwf|]. split; [exact Hout|].
  exact (proj1 (@authenticate_answer_sound imports [] "carol" "pw" _ Hwf) _ Hout).
Defined.


End FurtherWitnesses.
